(** * Wordle: the game logic of [wordle.py]

    A shallow embedding of the class [WordleGUI] of [wordle.py] and the
    properties of its guess evaluation and of its game sequencing.

    What is modelled, and how:
    - a Python [str] is a [string]; a character is a code point below 256
      and [isalpha], [lower] follow Python on that range;
    - a Python list is a [list]; [l[i]] is the lookup [l !! i], and an
      assignment [l[i] = x] outside the list raises [IndexError], which is
      the result [None] here;
    - the object's attributes are the fields of the record [WordleGUI];
      methods take the object and return the updated one;
    - the [after] timers a method starts are returned as a list of [Timer]s;
      [key_return] is the Return key with its timers run to their end, and
      [loop_step] is the main loop, with the timers waiting in a queue;
    - [wordfreq] (the functions [top_n_list] and [zipf_frequency]) and the
      outcome of [random.choice] are inputs. *)

From Stdlib Require Import Ascii String QArith.
From Stdlib Require Import DecimalString.
From stdpp Require Import gmap strings list sorting.

Local Open Scope string_scope.
Local Open Scope list_scope.
Local Open Scope nat_scope.

(** ** Constants (wordle.py, lines 6-12) *)

Definition TILE_SIZE : nat := 60.
Definition TILE_PADDING : nat := 5.
Definition GRID_ROWS : nat := 6.
Definition GRID_COLS : nat := 5.
Definition ANIM_DELAY : N := 150.
Definition MIN_ZIPF : Q := 3.
Definition WORDS_SAMPLE : N := 100000.

(** ** Characters and strings *)

Module Str.

Definition code (c : ascii) : N := N_of_ascii c.

Definition between (lo hi n : N) : bool := ((lo <=? n) && (n <=? hi))%N.

(** Upper-case letters below 256: A-Z and the Latin-1 capitals. *)
Definition isupper_char (c : ascii) : bool :=
  let n := code c in
  between 65 90 n || between 192 214 n || between 216 222 n.

(** [str.isalpha] on one character: the letter categories below 256. *)
Definition isalpha_char (c : ascii) : bool :=
  let n := code c in
  between 65 90 n || between 97 122 n
  || (n =? 170)%N || (n =? 181)%N || (n =? 186)%N
  || between 192 214 n || between 216 246 n || between 248 255 n.

(** [str.lower] on one character. *)
Definition lower_char (c : ascii) : ascii :=
  if isupper_char c then ascii_of_N (code c + 32) else c.

(** [str.isspace] on one character. *)
Definition isspace_char (c : ascii) : bool :=
  let n := code c in
  between 9 13 n || between 28 32 n || (n =? 133)%N || (n =? 160)%N.

Definition chars (s : string) : list ascii := list_ascii_of_string s.

(** [s.lower()], on code points below 256, where it maps a character to
    a character *)
Fixpoint lower (s : string) : string :=
  match s with
  | EmptyString => EmptyString
  | String c s' => String (lower_char c) (lower s')
  end.

Fixpoint all_alpha (s : string) : bool :=
  match s with
  | EmptyString => true
  | String c s' => isalpha_char c && all_alpha s'
  end.

(** [s.isalpha()]: false on the empty string. *)
Definition isalpha (s : string) : bool :=
  match s with
  | EmptyString => false
  | _ => all_alpha s
  end.

(** [len(s)] *)
Definition len (s : string) : nat := String.length s.

Fixpoint lstrip (s : string) : string :=
  match s with
  | EmptyString => EmptyString
  | String c s' => if isspace_char c then lstrip s' else s
  end.

Definition rev (s : string) : string :=
  string_of_list_ascii (List.rev (chars s)).

(** [s.strip()]: the trimming the specification speaks of.  The program
    never calls it. *)
Definition strip (s : string) : string := rev (lstrip (rev (lstrip s))).

End Str.

(** ** Lists as Python lists *)

(** [l[i] = x]: [IndexError] when [i] is not an index of [l]. *)
Definition set_item {A} (l : list A) (i : nat) (x : A) : option (list A) :=
  if decide (i < length l) then Some (<[i := x]> l) else None.

(** [x in l] for a list whose consumed entries are [None]. *)
Fixpoint contains (ch : ascii) (l : list (option ascii)) : bool :=
  match l with
  | [] => false
  | y :: l' => if decide (y = Some ch) then true else contains ch l'
  end.

(** [l.index(x)]: the first position of [x]; [ValueError] is [None]. *)
Fixpoint index (ch : ascii) (l : list (option ascii)) : option nat :=
  match l with
  | [] => None
  | y :: l' => if decide (y = Some ch) then Some 0 else S <$> index ch l'
  end.

(** [for i, x in enumerate(xs): body], started at index [i], with the loop
    state [s]; an exception in the body ends the loop. *)
Fixpoint for_enumerate {A S : Type} (body : nat → A → S → option S)
    (i : nat) (xs : list A) (s : S) : option S :=
  match xs with
  | [] => Some s
  | x :: xs' =>
      match body i x s with
      | Some s' => for_enumerate body (Datatypes.S i) xs' s'
      | None => None
      end
  end.

(** ** Guess evaluation: [WordleGUI._feedback] (lines 160-174) *)

(** The three tile colours; the specification calls them verdicts. *)
Definition Correct : string := "#538d4e".
Definition Present : string := "#b59f3b".
Definition Absent : string := "#3a3a3c".

(** The state of the two loops: [fb] and [secret_chars]. *)
Abbreviation Marks := (list string * list (option ascii))%type.

(** Body of the first loop (lines 166-169). *)
Definition exact_body (secret : list ascii) (i : nat) (ch : ascii)
    (m : Marks) : option Marks :=
  s ← secret !! i;
  if decide (ch = s) then
    fb ← set_item m.1 i Correct;
    sc ← set_item m.2 i None;
    Some (fb, sc)
  else Some m.

(** Body of the second loop (lines 170-173). *)
Definition misplaced_body (i : nat) (ch : ascii) (m : Marks) : option Marks :=
  col ← m.1 !! i;
  if bool_decide (col = Absent) && contains ch m.2 then
    fb ← set_item m.1 i Present;
    j ← index ch m.2;
    sc ← set_item m.2 j None;
    Some (fb, sc)
  else Some m.

Definition _feedback (secret guess : string) : option (list string) :=
  let fb := replicate GRID_COLS Absent in
  let secret_chars := Some <$> Str.chars secret in
  m ← for_enumerate (exact_body (Str.chars secret)) 0 (Str.chars guess)
        (fb, secret_chars);
  m ← for_enumerate misplaced_body 0 (Str.chars guess) m;
  Some m.1.

(** ** The object (attributes of [WordleGUI]) *)

(** State of the entry widget. *)
Inductive EntryState := normal | disabled.

(** Text of the message label.
    - [Text s] is a literal text [s];
    - [YouWon n] is [f"You won in {n} tries!"];
    - [OutOfTries w] is [f"Out of tries! Word was {w.upper()}"]. *)
Inductive Message :=
| Text (s : string)
| YouWon (tries : nat)
| OutOfTries (word : string).

(** The grid: [tiles[r][c]] is the fill colour of the rectangle of the tile
    in row [r] and column [c].  (The letter drawn on a tile is written by the
    key handler [_on_key] only and is left out.) *)
Abbreviation Grid := (list (list string)).

Record WordleGUI := mkGUI {
  words : list string;
  word_set : gset string;
  secret : string;
  current_row : nat;
  tiles : Grid;
  entry_text : string;        (* what [self.entry.get()] returns *)
  entry_state : EntryState;
  message : Message;
}.

#[global] Instance EntryState_eq_dec : EqDecision EntryState.
Proof. solve_decision. Defined.
#[global] Instance Message_eq_dec : EqDecision Message.
Proof. solve_decision. Defined.

Definition set_word_set (v : gset string) (self : WordleGUI) : WordleGUI :=
  mkGUI (words self) v (secret self) (current_row self) (tiles self)
        (entry_text self) (entry_state self) (message self).
Definition set_secret (v : string) (self : WordleGUI) : WordleGUI :=
  mkGUI (words self) (word_set self) v (current_row self) (tiles self)
        (entry_text self) (entry_state self) (message self).
Definition set_current_row (v : nat) (self : WordleGUI) : WordleGUI :=
  mkGUI (words self) (word_set self) (secret self) v (tiles self)
        (entry_text self) (entry_state self) (message self).
Definition set_tiles (v : Grid) (self : WordleGUI) : WordleGUI :=
  mkGUI (words self) (word_set self) (secret self) (current_row self) v
        (entry_text self) (entry_state self) (message self).
Definition set_entry_text (v : string) (self : WordleGUI) : WordleGUI :=
  mkGUI (words self) (word_set self) (secret self) (current_row self)
        (tiles self) v (entry_state self) (message self).
Definition set_entry_state (v : EntryState) (self : WordleGUI) : WordleGUI :=
  mkGUI (words self) (word_set self) (secret self) (current_row self)
        (tiles self) (entry_text self) v (message self).
Definition set_message (v : Message) (self : WordleGUI) : WordleGUI :=
  mkGUI (words self) (word_set self) (secret self) (current_row self)
        (tiles self) (entry_text self) (entry_state self) v.

(** The program keeps no status attribute: the outcome of a game is what the
    message label shows. *)
Inductive Status := InProgress | Won | Lost.

Definition status (self : WordleGUI) : Status :=
  match message self with
  | Text _ => InProgress
  | YouWon _ => Won
  | OutOfTries _ => Lost
  end.

(** ** Widgets *)

(** [self.entry.delete(0, tk.END)]: nothing happens on a disabled entry. *)
Definition entry_delete (self : WordleGUI) : WordleGUI :=
  match entry_state self with
  | normal => set_entry_text "" self
  | disabled => self
  end.

(** The player edits the entry; a disabled entry keeps its text. *)
Definition type_text (raw : string) (self : WordleGUI) : WordleGUI :=
  match entry_state self with
  | normal => set_entry_text raw self
  | disabled => self
  end.

(** [canvas.itemconfigure(self.tiles[r][c]['rect'], fill=col)] *)
Definition paint (r c : nat) (col : string) (g : Grid) : option Grid :=
  row ← g !! r;
  row' ← set_item row c col;
  Some (<[r := row']> g).

(** [for i in range(n): body] *)
Definition for_range {S : Type} (n : nat) (body : nat → S → option S)
    (s : S) : option S :=
  for_enumerate (λ _ i, body i) 0 (seq 0 n) s.

(** [enumerate(l)] from a first index. *)
Fixpoint enumerate_from {A} (i : nat) (l : list A) : list (nat * A) :=
  match l with
  | [] => []
  | x :: l' => (i, x) :: enumerate_from (S i) l'
  end.

(** ** Timers *)

(** What [self.after(delay, f)] registers: the two kinds of [f] the program
    uses (lines 130-131 and 133). *)
Inductive Callback :=
| Paint (i : nat) (col : string)
| AfterGuess (guess : string).

Abbreviation Timer := (N * Callback)%type.

(** ** Methods *)

(** [_shake] (lines 176-184) moves the window and puts it back; the window
    position is not an attribute of the model.  The timer it starts (line
    184) is the job [Unshake] of the event loop. *)
Definition _shake (self : WordleGUI) : WordleGUI := self.

(** [_reject_guess] (lines 135-140) *)
Definition _reject_guess (msg : string) (self : WordleGUI) : WordleGUI :=
  _shake (set_message (Text msg) self).

(** [_after_guess] (lines 142-158) *)
Definition _after_guess (guess : string) (self : WordleGUI) : WordleGUI :=
  let self := set_message (Text "") self in
  if decide (guess = secret self) then
    set_entry_state disabled (set_message (YouWon (current_row self + 1)) self)
  else
    let self := set_current_row (current_row self + 1) self in
    if decide (GRID_ROWS ≤ current_row self) then
      set_entry_state disabled (set_message (OutOfTries (secret self)) self)
    else
      entry_delete (set_entry_state normal self).

(** [_submit_guess] (lines 115-133).  The result is the object and the
    timers started; [None] is an [IndexError] out of [_feedback]. *)
Definition _submit_guess (self : WordleGUI)
    : option (WordleGUI * list Timer) :=
  let guess := Str.lower (entry_text self) in
  if decide (Str.len guess ≠ GRID_COLS) then
    Some (_reject_guess "Enter exactly 5 letters" self, [])
  else if negb (Str.isalpha guess) then
    Some (_reject_guess "Letters only, please" self, [])
  else if decide (guess ∉ word_set self) then
    Some (_reject_guess "Not a valid word" self, [])
  else
    colors ← _feedback (secret self) guess;
    let paints :=
      (λ ic : nat * string, (N.of_nat ic.1 * ANIM_DELAY, Paint ic.1 ic.2)%N)
        <$> enumerate_from 0 colors in
    let self := set_entry_state disabled self in
    Some (self,
          paints ++ [(N.of_nat (length colors) * ANIM_DELAY + 200,
                      AfterGuess guess)%N]).

(** [random.choice(l)] with the draw [k]; [IndexError] on the empty list. *)
Definition choice {A} (k : nat) (l : list A) : option A :=
  l !! (k mod length l).

(** Lines 96-99: every tile back to the empty colour. *)
Definition reset_tiles (g : Grid) : option Grid :=
  for_range GRID_ROWS (λ r g,
    for_range GRID_COLS (λ c g, paint r c Absent g) g) g.

(** [_start_game] (lines 85-99); [k] is the draw of [random.choice]. *)
Definition _start_game (k : nat) (self : WordleGUI) : option WordleGUI :=
  s ← choice k (words self);
  let self := set_secret s self in
  let self := set_current_row 0 self in
  let self := set_message (Text "") self in
  let self := set_entry_state normal self in
  let self := entry_delete self in
  g ← reset_tiles (tiles self);
  Some (set_tiles g self).

(** Running a timer's callback.  The tile painted is in the row
    [self.current_row] has when the timer fires. *)
Definition run_callback (cb : Callback) (self : WordleGUI)
    : option WordleGUI :=
  match cb with
  | Paint i col =>
      g ← paint (current_row self) i col (tiles self);
      Some (set_tiles g self)
  | AfterGuess guess => Some (_after_guess guess self)
  end.

(** The main loop runs the timers in the order of their delays; an exception
    in a callback is reported and the loop goes on. *)
Definition fire (self : WordleGUI) (t : Timer) : WordleGUI :=
  default self (run_callback t.2 self).

Definition run_timers (ts : list Timer) (self : WordleGUI) : WordleGUI :=
  foldl fire self ts.

(** The Return key in the entry (line 71), with nothing else happening
    before the last timer of the guess has fired: [_submit_guess], then its
    timers.  The event loop below has the timers in a queue. *)
Definition key_return (self : WordleGUI) : WordleGUI :=
  match _submit_guess self with
  | Some (self', ts) => run_timers ts self'
  | None => self
  end.

(** The player types [raw] and presses Return. *)
Definition play (self : WordleGUI) (raw : string) : WordleGUI :=
  key_return (type_text raw self).

Section Wordfreq.

(** The two functions of the library [wordfreq]. *)
Variable top_n_list : string → N → list string.
Variable zipf_frequency : string → string → Q.

(** The condition of the comprehension (lines 34-36). *)
Definition keep (w : string) : bool :=
  bool_decide (Str.len w = 5) && Str.isalpha w
  && Qle_bool MIN_ZIPF (zipf_frequency w "en").

(** [load_words] (lines 25-39): the list returned and the set stored. *)
Definition load_words : list string * gset string :=
  let top_words := top_n_list "en" WORDS_SAMPLE in
  let words := Str.lower <$> filter (λ w, keep w) top_words in
  (words, list_to_set words).

(** [_create_widgets] (lines 53-66, 68, 81): the grid, the entry and the
    message label as they are created. *)
Definition blank_tiles : Grid := replicate GRID_ROWS (replicate GRID_COLS Absent).

(** [__init__] (lines 16-23); [k] is the draw of the first game.  The
    attributes [secret] and [current_row] do not exist before
    [_start_game] assigns them; their values here are never read. *)
Definition __init__ (k : nat) : option WordleGUI :=
  let '(ws, wset) := load_words in
  _start_game k (mkGUI ws wset "" 0 blank_tiles "" normal (Text "")).

End Wordfreq.

(** ** Guess evaluation *)

(** Number of [Correct] verdicts of a feedback. *)
Definition count_correct (fb : list string) : nat :=
  length (filter (λ col, col = Correct) fb).

(** Number of positions at which two words have the same letter. *)
Definition matches (s g : list ascii) : nat :=
  length (filter (λ p : ascii * ascii, p.1 = p.2) (zip s g)).

(** ** The Return key *)

(** The timers an accepted guess starts. *)
Definition paint_timers (colors : list string) : list Timer :=
  (λ ic : nat * string, (N.of_nat ic.1 * ANIM_DELAY, Paint ic.1 ic.2)%N)
    <$> enumerate_from 0 colors.

Definition guess_timers (colors : list string) (guess : string) : list Timer :=
  paint_timers colors
  ++ [(N.of_nat (length colors) * ANIM_DELAY + 200, AfterGuess guess)%N].

(** A guess passes the three checks of [_submit_guess]. *)
Definition valid_guess (self : WordleGUI) (guess : string) : Prop :=
  Str.len guess = GRID_COLS ∧ Str.isalpha guess = true ∧ guess ∈ word_set self.

(** A word as [load_words] stores it. *)
Definition good_word (w : string) : Prop :=
  Str.len w = GRID_COLS ∧ Str.isalpha w = true ∧ Str.lower w = w.

(** The grid has [GRID_ROWS] rows of [GRID_COLS] tiles. *)
Definition grid_shape (g : Grid) : Prop :=
  length g = GRID_ROWS ∧ Forall (λ row, length row = GRID_COLS) g.

(** ** Sessions *)

(** What the player can do. *)
Inductive Event :=
| KeyText (raw : string)      (* edit the entry *)
| KeyReturn                   (* press Return in the entry *)
| NewGame (k : nat).          (* the button New Game; [k] is the draw *)

Definition handle (e : Event) (self : WordleGUI) : option WordleGUI :=
  match e with
  | KeyText raw => Some (type_text raw self)
  | KeyReturn => Some (key_return self)
  | NewGame k => _start_game k self
  end.

Definition run (evs : list Event) (self : WordleGUI) : option WordleGUI :=
  foldl (λ o e, o ≫= handle e) (Some self) evs.

(** The game is over: the entry is disabled and keeps the last guess. *)
Definition game_over (self : WordleGUI) : Prop :=
  let guess := Str.lower (entry_text self) in
  valid_guess self guess
  ∧ ((guess = secret self
      ∧ message self = YouWon (current_row self + 1)
      ∧ current_row self < GRID_ROWS
      ∧ ∃ fb, _feedback (secret self) guess = Some fb
              ∧ tiles self !! current_row self = Some fb)
     ∨ (guess ≠ secret self
        ∧ message self = OutOfTries (secret self)
        ∧ GRID_ROWS ≤ current_row self)).

(** The invariant of a session. *)
Record Inv (self : WordleGUI) : Prop := mkInv {
  inv_set : word_set self = list_to_set (words self);
  inv_words : Forall good_word (words self);
  inv_secret : secret self ∈ words self;
  inv_grid : grid_shape (tiles self);
  inv_phase :
    match entry_state self with
    | normal => current_row self < GRID_ROWS ∧ status self = InProgress
    | disabled => game_over self
    end;
}.

Section Sessions.

Variable top_n_list : string → N → list string.
Variable zipf_frequency : string → string → Q.

(** The states of a session: the object [__init__] builds, and what the
    player's actions make of it. *)
Inductive reachable : WordleGUI → Prop :=
| reach_init k self :
    __init__ top_n_list zipf_frequency k = Some self → reachable self
| reach_step e self self' :
    reachable self → handle e self = Some self' → reachable self'.

End Sessions.

(** ** Playing a guess *)

(** [_submit_guess] accepts the guess: it disables the entry and starts the
    timers of the guess. *)
Definition accepts (self : WordleGUI) (guess : string) : Prop :=
  ∃ fb, length fb = GRID_COLS
        ∧ _submit_guess self
          = Some (set_entry_state disabled self, guess_timers fb guess).

(** [_submit_guess] rejects the guess with the message [msg]: nothing but
    the message label changes and no timer is started. *)
Definition rejects (self : WordleGUI) (msg : string) : Prop :=
  _submit_guess self = Some (set_message (Text msg) self, []).


(** ** A session to run *)

Module Demo.

Definition top_n_list (lang : string) (n : N) : list string :=
  ["the"; "alloy"; "llama"; "crane"; "hello"; "12345"; "zebra"].

Definition zipf_frequency (w lang : string) : Q :=
  if decide (Str.lower w = "zebra") then 5 # 2 else 5.

Definition nothing : WordleGUI := mkGUI [] ∅ "" 0 [] "" normal (Text "").

(** A new session; the secret drawn is "alloy". *)
Definition game : WordleGUI :=
  default nothing (__init__ top_n_list zipf_frequency 0).

Definition six_misses : list string :=
  ["llama"; "crane"; "hello"; "LLAMA"; "Crane"; "hello"].

(** The session after six misses. *)
Definition lost_game : WordleGUI := foldl play game six_misses.

End Demo.

(** ** Counting letters and verdicts *)

(** Occurrences of the letter [c] in a word. *)
Definition letter_count (c : ascii) (l : list ascii) : nat :=
  length (filter (λ x, x = c) l).

(** Occurrences of [c] still unconsumed in [secret_chars]. *)
Definition left_count (c : ascii) (sc : list (option ascii)) : nat :=
  length (filter (λ y, y = Some c) sc).

(** Tiles of the guess [g] that carry the letter [c] and are coloured
    (green or yellow) in the feedback [fb]. *)
Definition marked (c : ascii) (g : list ascii) (fb : list string) : nat :=
  length (filter (λ p : ascii * string, p.1 = c ∧ p.2 ≠ Absent) (zip g fb)).

(** What holds of [fb] and [secret_chars] all through [_feedback]. *)
Record Marking (sec g : list ascii)
    (fb : list string) (sc : list (option ascii)) : Prop := mkMarking {
  mk_colours : ∀ j col, fb !! j = Some col →
    col = Correct ∨ col = Present ∨ col = Absent;
  mk_secret : ∀ j x, sc !! j = Some (Some x) → sec !! j = Some x;
  mk_correct : ∀ j, fb !! j = Some Correct →
    ∃ ch, g !! j = Some ch ∧ sec !! j = Some ch;
  mk_present : ∀ j, fb !! j = Some Present →
    ∃ ch, g !! j = Some ch ∧ ch ∈ sec ∧ sec !! j ≠ Some ch;
  mk_budget : ∀ c, left_count c sc + marked c g fb = letter_count c sec;
}.

(** Before round [i] of the first loop. *)
Definition Pass1 (sec g : list ascii) (i : nat) (m : Marks) : Prop :=
  Marking sec g m.1 m.2
  ∧ (∀ j, i ≤ j → j < length m.1 → m.1 !! j = Some Absent)
  ∧ (∀ j, i ≤ j → m.2 !! j = Some <$> sec !! j)
  ∧ (∀ j ch, j < i → g !! j = Some ch → sec !! j = Some ch →
       m.1 !! j = Some Correct)
  ∧ (∀ j, m.1 !! j ≠ Some Present).

(** Before round [k] of the second loop. *)
Definition Pass2 (sec g : list ascii) (k : nat) (m : Marks) : Prop :=
  Marking sec g m.1 m.2
  ∧ k ≤ length m.1
  ∧ (∀ j ch, g !! j = Some ch → sec !! j = Some ch → m.1 !! j = Some Correct)
  ∧ (∀ j ch, j < k → g !! j = Some ch → m.1 !! j = Some Absent →
       contains ch m.2 = false).

(** ** The canvas: [_create_widgets] (lines 47-61) *)

Definition canvas_width : nat :=
  GRID_COLS * (TILE_SIZE + TILE_PADDING) + TILE_PADDING.
Definition canvas_height : nat :=
  GRID_ROWS * (TILE_SIZE + TILE_PADDING) + TILE_PADDING.

(** The corners given to [create_rectangle]. *)
Record Rect := mkRect { rect_x1 : nat; rect_y1 : nat; rect_x2 : nat; rect_y2 : nat }.

(** Lines 57-61: the rectangle of the tile in row [r] and column [c]. *)
Definition tile_rect (r c : nat) : Rect :=
  let x1 := TILE_PADDING + c * (TILE_SIZE + TILE_PADDING) in
  let y1 := TILE_PADDING + r * (TILE_SIZE + TILE_PADDING) in
  mkRect x1 y1 (x1 + TILE_SIZE) (y1 + TILE_SIZE).

(** Lines 53-66: the rectangles in the order of the two loops. *)
Definition tile_rects : list (list Rect) :=
  (λ r, (λ c, tile_rect r c) <$> seq 0 GRID_COLS) <$> seq 0 GRID_ROWS.

(** ** The window on the screen (lines 189-192) *)

(** The position given to [geometry] for a window of [w] by [h] on a screen
    of [sw] by [sh]; [//] is the division of [Z]. *)
Definition centre (w h sw sh : Z) : Z * Z :=
  ((sw / 2) - (w / 2), (sh / 2) - (h / 2))%Z.

(** ** The event loop *)

(** [key_return] above is the Return key with its timers run at once: nothing
    else happens before the last of them.  The main loop of the program keeps
    the timers in a queue instead, and a key, the button New Game or another
    Return can come in between; this is the model of that. *)

(** What waits in the queue: a callback of a guess, or the callback of
    [_shake] (line 184) that puts the window back where it was. *)
Inductive Job :=
| Call (cb : Callback)
| Unshake.

(** The main loop: the object, the clock in ms, and the timers waiting, each
    with the time at which it is due, in the order in which they fire (by
    due time, and for one due time in the order of their registration). *)
Record Loop := mkLoop {
  gui : WordleGUI;
  clock : N;
  queue : list (N * Job);
}.

(** A timer enters the queue behind those due no later than it is. *)
Fixpoint enqueue (t : N * Job) (q : list (N * Job)) : list (N * Job) :=
  match q with
  | [] => [t]
  | u :: q' => if (t.1 <? u.1)%N then t :: u :: q' else u :: enqueue t q'
  end.

(** [self.after(delay, f)] at the time [t], for each timer of [ts] in turn. *)
Definition after_all (t : N) (ts : list (N * Job)) (q : list (N * Job))
    : list (N * Job) :=
  foldl (λ q d, enqueue ((t + d.1)%N, d.2) q) q ts.

(** Running a job.  An exception in a callback is reported and the loop goes
    on; the callback of [_shake] moves the window only. *)
Definition run_job (j : Job) (self : WordleGUI) : WordleGUI :=
  match j with
  | Call cb => default self (run_callback cb self)
  | Unshake => self
  end.

(** The timers of one Return: those of [_submit_guess] for an accepted
    guess; for a rejected guess, for which it has none, the timer [_shake]
    starts with [self.after(100, ...)]. *)
Definition submit_jobs (ts : list Timer) : list (N * Job) :=
  match ts with
  | [] => [(100%N, Unshake)]
  | _ => (λ t : Timer, (t.1, Call t.2)) <$> ts
  end.

(** What happens in the loop: time passes, the first timer of the queue
    fires, or the player does something. *)
Inductive Step :=
| Wait (ms : N)
| Fire
| Key (e : Event).

(** One step; [None] when the step cannot be taken (no timer is due) or the
    handler raises.  A handler runs to its end before the next step.  (In
    [_shake], [self.update()] lets waiting events run while the window
    moves; [_reject_guess] has set the message by then and nothing is done
    to the object after it, so for the object these events come after the
    handler.) *)
Definition loop_step (s : Step) (L : Loop) : option Loop :=
  match s with
  | Wait ms => Some (mkLoop (gui L) (clock L + ms) (queue L))
  | Fire =>
      match queue L with
      | (due, j) :: q =>
          if (due <=? clock L)%N
          then Some (mkLoop (run_job j (gui L)) (clock L) q)
          else None
      | [] => None
      end
  | Key (KeyText raw) =>
      Some (mkLoop (type_text raw (gui L)) (clock L) (queue L))
  | Key KeyReturn =>
      r ← _submit_guess (gui L);
      Some (mkLoop r.1 (clock L)
              (after_all (clock L) (submit_jobs r.2) (queue L)))
  | Key (NewGame k) =>
      self ← _start_game k (gui L);
      Some (mkLoop self (clock L) (queue L))
  end.

Definition loop_run (ss : list Step) (L : Loop) : option Loop :=
  foldl (λ o s, o ≫= loop_step s) (Some L) ss.

(** Steps of the loop alone: the player does nothing. *)
Definition quiet (s : Step) : Prop :=
  match s with
  | Key _ => False
  | _ => True
  end.

Section LoopSessions.

Variable top_n_list : string → N → list string.
Variable zipf_frequency : string → string → Q.

(** The states of the loop in a session, whatever the order of the player's
    actions and of the timers. *)
Inductive loop_reachable : Loop → Prop :=
| loop_init k self :
    __init__ top_n_list zipf_frequency k = Some self →
    loop_reachable (mkLoop self 0 [])
| loop_next s L L' :
    loop_reachable L → loop_step s L = Some L' → loop_reachable L'.

End LoopSessions.

(** What holds of the object in every state of the loop. *)
Record Robust (self : WordleGUI) : Prop := mkRobust {
  rb_set : word_set self = list_to_set (words self);
  rb_words : Forall good_word (words self);
  rb_secret : secret self ∈ words self;
  rb_grid : grid_shape (tiles self);
  rb_enabled : entry_state self = normal →
    current_row self < GRID_ROWS ∧ status self = InProgress;
  rb_won : ∀ n, message self = YouWon n → n = current_row self + 1;
  rb_lost : ∀ w, message self = OutOfTries w →
    w = secret self ∧ GRID_ROWS ≤ current_row self;
}.

Module DemoLoop.

(** Time for the timers of a guess, and their firing. *)
Definition settle : list Step := [Wait 950; Fire; Fire; Fire; Fire; Fire; Fire].

(** A guess typed and played to its end. *)
Definition played (raw : string) : list Step :=
  [Key (KeyText raw); Key KeyReturn] ++ settle.

Definition start : Loop := mkLoop Demo.game 0 [].

(** "llama" is in the entry of a new session. *)
Definition typed : Loop := mkLoop (type_text "llama" Demo.game) 0 [].

(** The loop after the six misses of [Demo], each played to its end. *)
Definition lost : Loop := mkLoop Demo.lost_game 5700 [].

(** Four misses, then a fifth with Return pressed again 100 ms later. *)
Definition double_return : list Step :=
  (take 4 Demo.six_misses ≫= played)
  ++ [Key (KeyText "crane"); Key KeyReturn; Wait 100; Key KeyReturn;
      Wait 950] ++ replicate 12 Fire.

End DemoLoop.

(** * Properties *)

(** ** Strings *)

Module StrFacts.
Import Str.

Lemma len_chars s : length (chars s) = len s.
Proof. induction s as [|c s IH]; simpl; [done | by rewrite IH]. Qed.

Lemma lower_len s : len (lower s) = len s.
Proof. induction s as [|c s IH]; simpl; [done | by f_equal]. Qed.

Lemma isalpha_lower_char c : isalpha_char (lower_char c) = isalpha_char c.
Proof. by destruct c as [[] [] [] [] [] [] [] []]; vm_compute. Qed.

Lemma lower_lower_char c : lower_char (lower_char c) = lower_char c.
Proof. by destruct c as [[] [] [] [] [] [] [] []]; vm_compute. Qed.

Lemma all_alpha_lower s : all_alpha (lower s) = all_alpha s.
Proof.
  induction s as [|c s IH]; simpl; [done |].
  by rewrite isalpha_lower_char, IH.
Qed.

Lemma isalpha_lower s : isalpha (lower s) = isalpha s.
Proof.
  destruct s as [|c s]; [done |].
  change (all_alpha (lower (String c s)) = all_alpha (String c s)).
  apply all_alpha_lower.
Qed.

Lemma lower_lower s : lower (lower s) = lower s.
Proof.
  induction s as [|c s IH]; simpl; [done |].
  by rewrite lower_lower_char, IH.
Qed.

End StrFacts.

(** ** Guess evaluation *)

Example feedback_apple : _feedback "apple" "apple" = Some (replicate 5 Correct).
Proof. reflexivity. Qed.

Example feedback_crane_bolts : _feedback "crane" "bolts" = Some (replicate 5 Absent).
Proof. reflexivity. Qed.

Section Feedback.

Lemma set_item_Some {A} (l : list A) i x :
  i < length l → set_item l i x = Some (<[i := x]> l).
Proof. intros Hi. unfold set_item. by rewrite decide_True. Qed.

Lemma set_item_length {A} (l l' : list A) i x :
  set_item l i x = Some l' → length l' = length l.
Proof.
  unfold set_item. case_decide; [|done].
  intros [= <-]. apply length_insert.
Qed.

Lemma contains_index ch sc :
  contains ch sc = true → ∃ j, index ch sc = Some j ∧ j < length sc.
Proof.
  induction sc as [|y sc IH]; simpl; [done |].
  case_decide.
  - intros _. exists 0. split; [done | lia].
  - intros Hc. destruct (IH Hc) as (j & -> & Hj).
    exists (S j). split; [done | lia].
Qed.

Lemma count_correct_cons col fb :
  count_correct (col :: fb) =
  (if decide (col = Correct) then 1 else 0) + count_correct fb.
Proof.
  unfold count_correct. rewrite filter_cons.
  by destruct (decide (col = Correct)).
Qed.

(** Overwriting a verdict that was not [Correct]. *)
Lemma count_correct_insert fb i old new :
  fb !! i = Some old → old ≠ Correct →
  count_correct (<[i := new]> fb) =
  (if decide (new = Correct) then 1 else 0) + count_correct fb.
Proof.
  revert i. induction fb as [|col fb IH]; intros i Hi Hold; [done |].
  destruct i as [|i]; simpl in *.
  - injection Hi as ->. rewrite !count_correct_cons.
    by rewrite (decide_False (P := old = Correct)).
  - rewrite !count_correct_cons, (IH i Hi Hold). lia.
Qed.

Lemma matches_cons s ss g gs :
  matches (s :: ss) (g :: gs) =
  (if decide (g = s) then 1 else 0) + matches ss gs.
Proof.
  unfold matches. simpl. rewrite filter_cons. simpl.
  destruct (decide (s = g)), (decide (g = s)); simpl; congruence.
Qed.

(** The first loop: it ends normally when the guess is no longer than
    the secret and than [fb], and adds one [Correct] per letter in place. *)
Lemma exact_pass_spec sec g : ∀ i fb sc,
  length sc = length sec →
  i + length g ≤ length sec →
  i + length g ≤ length fb →
  (∀ j, i ≤ j → fb !! j ≠ Some Correct) →
  ∃ fb' sc',
    for_enumerate (exact_body sec) i g (fb, sc) = Some (fb', sc')
    ∧ length fb' = length fb
    ∧ count_correct fb' = count_correct fb + matches (drop i sec) g.
Proof.
  induction g as [|ch g IH]; intros i fb sc Hsc Hsec Hfb Hgray.
  - exists fb, sc. split; [done |]. split; [done |].
    unfold matches. rewrite zip_with_nil_r. simpl. lia.
  - simpl in Hsec, Hfb.
    destruct (lookup_lt_is_Some_2 sec i) as [s Hs]; [lia |].
    destruct (lookup_lt_is_Some_2 fb i) as [old Hold]; [lia |].
    assert (old ≠ Correct) as Hne
      by (intros ->; by apply (Hgray i)).
    rewrite (drop_S _ _ _ Hs), matches_cons.
    simpl. unfold exact_body at 1. rewrite Hs. simpl.
    destruct (decide (ch = s)) as [->|Hch].
    + rewrite !set_item_Some by lia. simpl.
      destruct (IH (S i) (<[i := Correct]> fb) (<[i := None]> sc))
        as (fb' & sc' & Hrun & Hlen & Hcount).
      * by rewrite length_insert.
      * lia.
      * rewrite length_insert. lia.
      * intros j Hj. rewrite list_lookup_insert_ne by lia.
        apply Hgray. lia.
      * exists fb', sc'. rewrite Hrun, Hlen, Hcount, length_insert.
        rewrite (count_correct_insert _ _ old) by done.
        rewrite decide_True by done. split; [done | split; [done | lia]].
    + destruct (IH (S i) fb sc) as (fb' & sc' & Hrun & Hlen & Hcount);
        [done | lia | lia | |].
      * intros j Hj. apply Hgray. lia.
      * exists fb', sc'. rewrite Hrun, Hlen, Hcount.
        split; [done | split; [done | lia]].
Qed.

(** One round of the second loop keeps the length of [fb] and its
    [Correct] verdicts. *)
Lemma misplaced_body_spec i ch fb sc :
  i < length fb →
  ∃ fb' sc',
    misplaced_body i ch (fb, sc) = Some (fb', sc')
    ∧ length fb' = length fb
    ∧ count_correct fb' = count_correct fb.
Proof.
  intros Hi.
  destruct (lookup_lt_is_Some_2 fb i) as [col Hcol]; [done |].
  unfold misplaced_body. simpl. rewrite Hcol. simpl.
  destruct (bool_decide (col = Absent) && contains ch sc) eqn:Hc.
  - apply andb_true_iff in Hc as [Hab Hin].
    apply bool_decide_eq_true in Hab as ->.
    destruct (contains_index _ _ Hin) as (j & Hj & Hlt).
    rewrite set_item_Some, Hj by done. simpl.
    rewrite set_item_Some by done. simpl.
    eexists _, _. split; [done |]. rewrite length_insert.
    split; [done |].
    by rewrite (count_correct_insert _ _ Absent).
  - by exists fb, sc.
Qed.

Lemma misplaced_pass_spec g : ∀ i fb sc,
  i + length g ≤ length fb →
  ∃ fb' sc',
    for_enumerate misplaced_body i g (fb, sc) = Some (fb', sc')
    ∧ length fb' = length fb
    ∧ count_correct fb' = count_correct fb.
Proof.
  induction g as [|ch g IH]; intros i fb sc Hfb; [by exists fb, sc |].
  simpl in Hfb.
  destruct (misplaced_body_spec i ch fb sc) as (fb1 & sc1 & H1 & Hl1 & Hc1);
    [lia |].
  simpl. rewrite H1.
  destruct (IH (S i) fb1 sc1) as (fb' & sc' & Hrun & Hlen & Hcount); [lia |].
  exists fb', sc'. rewrite Hrun. split; [done |]. split; congruence.
Qed.

(** A guess longer than [fb]: the second loop reads [fb] out of range. *)
Lemma misplaced_pass_overrun g : ∀ i fb sc,
  i ≤ length fb → length fb < i + length g →
  for_enumerate misplaced_body i g (fb, sc) = None.
Proof.
  induction g as [|ch g IH]; intros i fb sc Hi Hg; simpl in *; [lia |].
  destruct (decide (i = length fb)) as [->|Hne].
  - unfold misplaced_body at 1. simpl.
    by rewrite (lookup_ge_None_2 fb (length fb)).
  - destruct (misplaced_body_spec i ch fb sc) as (fb1 & sc1 & H1 & Hl1 & _);
      [lia |].
    rewrite H1. apply IH; lia.
Qed.

(** The first loop never changes the length of [fb]. *)
Lemma exact_pass_length sec g : ∀ i fb sc fb' sc',
  for_enumerate (exact_body sec) i g (fb, sc) = Some (fb', sc') →
  length fb' = length fb.
Proof.
  induction g as [|ch g IH]; intros i fb sc fb' sc'; simpl.
  - by intros [= -> ->].
  - unfold exact_body at 1. simpl.
    destruct (sec !! i) as [s|]; simpl; [|done].
    destruct (decide (ch = s)); [|by apply IH].
    destruct (set_item fb i Correct) as [fb1|] eqn:Hfb; simpl; [|done].
    destruct (set_item sc i None) as [sc1|]; simpl; [|done].
    intros Hrun. apply IH in Hrun. rewrite Hrun.
    by eapply set_item_length.
Qed.

(** [_feedback] on two words of one length. *)
Lemma feedback_spec s g :
  Str.len s = Str.len g →
  (Str.len g ≤ GRID_COLS →
    ∃ fb, _feedback s g = Some fb
          ∧ length fb = GRID_COLS
          ∧ count_correct fb = matches (Str.chars s) (Str.chars g))
  ∧ (GRID_COLS < Str.len g → _feedback s g = None).
Proof.
  intros Hlen. rewrite <- !StrFacts.len_chars in *. unfold _feedback.
  split; intros Hg.
  - destruct (exact_pass_spec (Str.chars s) (Str.chars g) 0
                (replicate GRID_COLS Absent) (Some <$> Str.chars s))
      as (fb1 & sc1 & H1 & Hl1 & Hc1).
    + by rewrite length_fmap.
    + simpl. lia.
    + by rewrite length_replicate.
    + intros j _. destruct (decide (j < GRID_COLS)).
      * by rewrite lookup_replicate_2.
      * rewrite lookup_ge_None_2; [done | rewrite length_replicate; lia].
    + rewrite H1. simpl.
      destruct (misplaced_pass_spec (Str.chars g) 0 fb1 sc1)
        as (fb2 & sc2 & H2 & Hl2 & Hc2).
      * rewrite Hl1, length_replicate. simpl. lia.
      * rewrite H2. simpl. exists fb2.
        rewrite Hl2, Hl1, length_replicate, Hc2, Hc1.
        split; [done | split; [done |]]. simpl. by vm_compute.
  - destruct (for_enumerate (exact_body (Str.chars s)) 0 (Str.chars g)
                (replicate GRID_COLS Absent, Some <$> Str.chars s))
      as [[fb1 sc1]|] eqn:H1; simpl; [|done].
    apply exact_pass_length in H1. rewrite length_replicate in H1.
    rewrite misplaced_pass_overrun; [done | lia | simpl; lia].
Qed.

End Feedback.

(** ** The Return key *)

Section Return.

Lemma set_tiles_same self : set_tiles (tiles self) self = self.
Proof. by destruct self. Qed.

(** The tile timers write the colours into the current row, one tile
    after the other. *)
Lemma run_paint_timers_from self r : ∀ colors painted old i,
  current_row self = r →
  tiles self !! r = Some (painted ++ old) →
  length old = length colors →
  i = length painted →
  run_timers
    ((λ ic : nat * string, (N.of_nat ic.1 * ANIM_DELAY, Paint ic.1 ic.2)%N)
       <$> enumerate_from i colors) self
  = set_tiles (<[r := painted ++ colors]> (tiles self)) self.
Proof.
  intros colors. revert self.
  induction colors as [|col colors IH]; intros self painted old i Hr Hrow Hlen ->.
  - destruct old; [|done]. rewrite app_nil_r in *. simpl.
    rewrite list_insert_id by done. by rewrite set_tiles_same.
  - destruct old as [|o old]; [done |]. simpl in Hlen.
    assert (r < length (tiles self)) by by eapply lookup_lt_Some.
    assert (fire self ((N.of_nat (length painted) * ANIM_DELAY)%N,
                       Paint (length painted) col)
            = set_tiles (<[r := (painted ++ [col]) ++ old]> (tiles self)) self)
      as Hfire.
    { unfold fire. simpl. unfold paint. rewrite Hr, Hrow. simpl.
      rewrite set_item_Some by (rewrite length_app; simpl; lia). simpl.
      rewrite <- (Nat.add_0_r (length painted)) at 1.
      rewrite insert_app_r. simpl. by rewrite <- app_assoc. }
    simpl. rewrite Hfire.
    etrans.
    { apply (IH _ (painted ++ [col]) old); [by destruct self | | lia |].
      - destruct self; simpl in *. by rewrite list_lookup_insert_eq.
      - rewrite length_app. simpl. lia. }
    destruct self; simpl in *.
    by rewrite list_insert_insert_eq, <- app_assoc.
Qed.

Lemma run_paint_timers self colors row :
  tiles self !! current_row self = Some row →
  length row = length colors →
  run_timers (paint_timers colors) self
  = set_tiles (<[current_row self := colors]> (tiles self)) self.
Proof.
  intros Hrow Hlen.
  by apply (run_paint_timers_from self _ colors [] row 0).
Qed.

(** With the current row past the grid every tile timer fails and nothing
    is painted. *)
Lemma run_paint_timers_off_grid self : ∀ colors i,
  length (tiles self) ≤ current_row self →
  run_timers
    ((λ ic : nat * string, (N.of_nat ic.1 * ANIM_DELAY, Paint ic.1 ic.2)%N)
       <$> enumerate_from i colors) self
  = self.
Proof.
  intros colors. induction colors as [|col colors IH]; intros i Hr; [done |].
  assert (fire self ((N.of_nat i * ANIM_DELAY)%N, Paint i col) = self)
    as Hfire.
  { unfold fire. simpl. unfold paint.
    by rewrite (lookup_ge_None_2 _ _ Hr). }
  simpl. rewrite Hfire. by apply IH.
Qed.

(** The delays of the timers of a guess grow along the list, so the order
    of the list is the order in which they fire. *)
Lemma paint_timers_delays colors : ∀ i,
  ((λ ic : nat * string, (N.of_nat ic.1 * ANIM_DELAY, Paint ic.1 ic.2)%N)
     <$> enumerate_from i colors).*1
  = (λ j, N.of_nat j * ANIM_DELAY)%N <$> seq i (length colors).
Proof.
  induction colors as [|col colors IH]; intros i; [done |].
  simpl. by rewrite IH.
Qed.

Lemma delays_sorted n : ∀ i,
  StronglySorted N.lt
    (((λ j, N.of_nat j * ANIM_DELAY)%N <$> seq i n)
     ++ [(N.of_nat (i + n) * ANIM_DELAY + 200)%N]).
Proof.
  unfold ANIM_DELAY.
  induction n as [|n IH]; intros i; simpl.
  - repeat constructor.
  - constructor.
    + replace (i + S n) with (S i + n) by lia. apply IH.
    + apply Forall_app. split.
      * apply Forall_fmap, Forall_forall. intros j Hj%elem_of_seq. simpl. lia.
      * constructor; [lia | constructor].
Qed.

Lemma guess_timers_sorted colors guess :
  StronglySorted N.lt (guess_timers colors guess).*1.
Proof.
  unfold guess_timers, paint_timers.
  rewrite fmap_app, paint_timers_delays. apply (delays_sorted _ 0).
Qed.

End Return.

(** ** Sessions *)

Section Runs.

Variable top_n_list : string → N → list string.
Variable zipf_frequency : string → string → Q.
Local Abbreviation reachable := (reachable top_n_list zipf_frequency).

Lemma reachable_run evs : ∀ self self',
  reachable self → run evs self = Some self' → reachable self'.
Proof.
  unfold run. induction evs as [|e evs IH] using rev_ind; intros self self' Hr.
  - by intros [= <-].
  - rewrite foldl_app. simpl.
    destruct (foldl _ _ evs) as [mid|] eqn:Hmid; simpl; [|done].
    intros He. eapply reach_step; [by eapply IH | done].
Qed.

End Runs.

Section Steps.

Lemma submit_wrong_length self :
  Str.len (Str.lower (entry_text self)) ≠ GRID_COLS →
  _submit_guess self
  = Some (_reject_guess "Enter exactly 5 letters" self, []).
Proof. intros H. unfold _submit_guess. by rewrite decide_True. Qed.

Lemma submit_non_alpha self :
  Str.len (Str.lower (entry_text self)) = GRID_COLS →
  Str.isalpha (Str.lower (entry_text self)) = false →
  _submit_guess self = Some (_reject_guess "Letters only, please" self, []).
Proof.
  intros H1 H2. unfold _submit_guess.
  rewrite decide_False by (by intros ?). by rewrite H2.
Qed.

Lemma submit_unknown self :
  Str.len (Str.lower (entry_text self)) = GRID_COLS →
  Str.isalpha (Str.lower (entry_text self)) = true →
  Str.lower (entry_text self) ∉ word_set self →
  _submit_guess self = Some (_reject_guess "Not a valid word" self, []).
Proof.
  intros H1 H2 H3. unfold _submit_guess.
  rewrite decide_False by (by intros ?). rewrite H2. simpl.
  by rewrite decide_True.
Qed.

Lemma submit_valid self :
  valid_guess self (Str.lower (entry_text self)) →
  _submit_guess self
  = colors ← _feedback (secret self) (Str.lower (entry_text self));
    Some (set_entry_state disabled self,
          guess_timers colors (Str.lower (entry_text self))).
Proof.
  intros (H1 & H2 & H3). unfold _submit_guess.
  rewrite decide_False by (by intros ?). rewrite H2. simpl.
  rewrite decide_False by (by intros ?). done.
Qed.

(** The three checks are decidable: a guess is valid or it is rejected. *)
Lemma valid_guess_dec self guess :
  valid_guess self guess
  ∨ Str.len guess ≠ GRID_COLS
  ∨ (Str.len guess = GRID_COLS ∧ Str.isalpha guess = false)
  ∨ (Str.len guess = GRID_COLS ∧ Str.isalpha guess = true
     ∧ guess ∉ word_set self).
Proof.
  unfold valid_guess.
  destruct (decide (Str.len guess = GRID_COLS)); [|by auto].
  destruct (Str.isalpha guess) eqn:?; [|by auto 6].
  destruct (decide (guess ∈ word_set self)); by auto 8.
Qed.

(** The timers of a guess: the row is painted, then [_after_guess] runs. *)
Lemma run_guess_timers self colors guess :
  grid_shape (tiles self) → length colors = GRID_COLS →
  run_timers (guess_timers colors guess) self
  = _after_guess guess
      (set_tiles (<[current_row self := colors]> (tiles self)) self).
Proof.
  intros [Hrows Hcols] Hlen.
  unfold guess_timers, run_timers. rewrite foldl_app. simpl.
  unfold fire at 1. simpl. f_equal.
  destruct (tiles self !! current_row self) as [row|] eqn:Hrow.
  - apply (run_paint_timers self colors row Hrow).
    rewrite Hlen. by eapply (Forall_lookup_1 _ _ _ _ Hcols).
  - apply lookup_ge_None_1 in Hrow.
    rewrite list_insert_ge, set_tiles_same by done.
    by apply run_paint_timers_off_grid.
Qed.

(** The Return key on a valid guess. *)
Lemma key_return_valid self :
  valid_guess self (Str.lower (entry_text self)) →
  Str.len (secret self) = GRID_COLS →
  grid_shape (tiles self) →
  ∃ fb, _feedback (secret self) (Str.lower (entry_text self)) = Some fb
        ∧ length fb = GRID_COLS
        ∧ key_return self
          = _after_guess (Str.lower (entry_text self))
              (set_tiles (<[current_row self := fb]> (tiles self))
                 (set_entry_state disabled self)).
Proof.
  intros Hv Hs Hg.
  destruct (feedback_spec (secret self) (Str.lower (entry_text self)))
    as [Hfb _]; [destruct Hv; congruence |].
  destruct Hfb as (fb & Hfb & Hlen & _); [by destruct Hv as [-> _] |].
  exists fb. split; [done |]. split; [done |].
  unfold key_return. rewrite (submit_valid _ Hv), Hfb. simpl.
  by rewrite run_guess_timers.
Qed.

End Steps.

(** ** The invariant holds in every session *)

Section Invariant.

Lemma list_of_length_5 {A} (l : list A) :
  length l = 5 → ∃ a b c d e, l = [a; b; c; d; e].
Proof.
  do 5 (destruct l as [|? l]; [done |]).
  destruct l; [|done]. intros _. by eexists _, _, _, _, _.
Qed.

Lemma blank_tiles_shape : grid_shape blank_tiles.
Proof. split; [done |]. by repeat constructor. Qed.

(** Lines 96-99 on a grid of the right shape. *)
Lemma reset_tiles_shape g : grid_shape g → reset_tiles g = Some blank_tiles.
Proof.
  intros [Hrows Hcols].
  do 6 (destruct g as [|? g]; [done |]). destruct g; [|done].
  repeat match goal with
         | H : Forall _ (_ :: _) |- _ => apply Forall_cons in H as [? H]
         end.
  repeat match goal with
         | H : length ?l = GRID_COLS |- _ =>
             apply list_of_length_5 in H as (? & ? & ? & ? & ? & ->)
         end.
  reflexivity.
Qed.

Lemma choice_elem_of {A} k (l : list A) x : choice k l = Some x → x ∈ l.
Proof. unfold choice. apply list_elem_of_lookup_2. Qed.

Lemma choice_is_Some {A} k (l : list A) : l ≠ [] → is_Some (choice k l).
Proof.
  intros Hl. unfold choice. apply lookup_lt_is_Some_2.
  apply Nat.mod_upper_bound. by destruct l.
Qed.

Lemma Inv_good_secret self : Inv self → good_word (secret self).
Proof.
  intros [_ Hw Hs _ _]. by eapply (proj1 (Forall_forall _ _) Hw).
Qed.

Lemma Inv_secret_in_set self : Inv self → secret self ∈ word_set self.
Proof. intros [-> _ Hs _ _]. by apply elem_of_list_to_set. Qed.

Lemma Inv_secret_valid self : Inv self → valid_guess self (secret self).
Proof.
  intros HI. destruct (Inv_good_secret self HI) as (? & ? & _).
  split; [done |]. split; [done |]. by apply Inv_secret_in_set.
Qed.

(** A new game. *)
Lemma start_game_spec k self self' :
  _start_game k self = Some self' →
  grid_shape (tiles self) →
  ∃ s, choice k (words self) = Some s
       ∧ self' = mkGUI (words self) (word_set self) s 0 blank_tiles ""
                   normal (Text "").
Proof.
  unfold _start_game. intros Hstart Hg.
  destruct (choice k (words self)) as [s|]; simpl in *; [|done].
  exists s. split; [done |].
  destruct self; simpl in *.
  rewrite (reset_tiles_shape _ Hg) in Hstart. simpl in Hstart.
  by injection Hstart as <-.
Qed.

Lemma start_game_Inv k self self' :
  word_set self = list_to_set (words self) →
  Forall good_word (words self) →
  grid_shape (tiles self) →
  _start_game k self = Some self' → Inv self'.
Proof.
  intros Hset Hwords Hg Hstart.
  destruct (start_game_spec _ _ _ Hstart Hg) as (s & Hs & ->).
  split; simpl; [done | done | by eapply choice_elem_of | |].
  - apply blank_tiles_shape.
  - split; [unfold GRID_ROWS; lia | done].
Qed.

Lemma type_text_Inv raw self : Inv self → Inv (type_text raw self).
Proof.
  intros [H1 H2 H3 H4 H5]. unfold type_text.
  destruct (entry_state self) eqn:He; [|by split; rewrite ?He].
  split; simpl; try done. by rewrite He.
Qed.

Lemma reject_Inv msg self :
  entry_state self = normal → Inv self → Inv (_reject_guess msg self).
Proof.
  intros He [H1 H2 H3 H4 H5]. rewrite He in H5.
  split; simpl; try done. rewrite He. by destruct H5.
Qed.

Lemma grid_shape_insert g r row :
  grid_shape g → length row = GRID_COLS → grid_shape (<[r := row]> g).
Proof.
  intros [H1 H2] Hrow. split; [by rewrite length_insert |].
  by apply Forall_insert.
Qed.

(** The Return key in a game that is over. *)
Lemma key_return_game_over self :
  Inv self → entry_state self = disabled →
  (status self = Won ∧ key_return self = self)
  ∨ (status self = Lost
     ∧ key_return self = set_current_row (current_row self + 1) self).
Proof.
  intros HI He. pose proof (Inv_good_secret _ HI) as (Hlen & _).
  pose proof HI as [H1 H2 H3 H4 H5]. rewrite He in H5.
  destruct H5 as [Hv Hcase].
  destruct (key_return_valid self Hv Hlen H4) as (fb & Hfb & Hfblen & ->).
  destruct Hcase as [(Hg & Hm & Hr & fb' & Hfb' & Hrow)
                    |(Hg & Hm & Hr)].
  - left. split; [unfold status; by rewrite Hm |].
    assert (fb' = fb) as -> by congruence.
    rewrite list_insert_id by done.
    unfold _after_guess. simpl. rewrite decide_True by done.
    destruct self; simpl in *. by subst.
  - right. split; [unfold status; by rewrite Hm |].
    rewrite list_insert_ge by (destruct H4 as [-> _]; lia).
    unfold _after_guess. simpl. rewrite decide_False by done.
    rewrite decide_True by lia.
    destruct self; simpl in *. by subst.
Qed.

(** The Return key on a valid guess while the entry is enabled. *)
Lemma key_return_playing self :
  Inv self → entry_state self = normal →
  valid_guess self (Str.lower (entry_text self)) →
  ∃ fb, _feedback (secret self) (Str.lower (entry_text self)) = Some fb
    ∧ length fb = GRID_COLS
    ∧ let painted :=
        set_tiles (<[current_row self := fb]> (tiles self)) self in
      key_return self =
        if decide (Str.lower (entry_text self) = secret self) then
          set_entry_state disabled
            (set_message (YouWon (current_row self + 1)) painted)
        else if decide (GRID_ROWS ≤ current_row self + 1) then
          set_entry_state disabled
            (set_message (OutOfTries (secret self))
               (set_current_row (current_row self + 1) painted))
        else
          set_entry_text ""
            (set_message (Text "")
               (set_current_row (current_row self + 1) painted)).
Proof.
  intros HI He Hv. pose proof (Inv_good_secret _ HI) as (Hlen & _).
  destruct (key_return_valid self Hv Hlen (inv_grid _ HI))
    as (fb & Hfb & Hfblen & ->).
  exists fb. split; [done |]. split; [done |].
  unfold _after_guess. simpl.
  destruct (decide (Str.lower (entry_text self) = secret self)).
  - by destruct self.
  - destruct (decide (GRID_ROWS ≤ current_row self + 1)).
    + by destruct self.
    + destruct self; simpl in *. by subst.
Qed.

Lemma key_return_Inv self : Inv self → Inv (key_return self).
Proof.
  intros HI. destruct (entry_state self) eqn:He.
  - destruct (valid_guess_dec self (Str.lower (entry_text self)))
      as [Hv | [Hbad | [[Hl Hbad] | (Hl & Ha & Hbad)]]].
    + destruct (key_return_playing self HI He Hv) as (fb & Hfb & Hlen & ->).
      pose proof HI as [H1 H2 H3 H4 H5]. rewrite He in H5.
      destruct H5 as [Hrow Hst].
      pose proof (grid_shape_insert _ (current_row self) fb H4 Hlen) as Hg.
      destruct (decide (Str.lower (entry_text self) = secret self)) as [Heq|Hne].
      * split; simpl; try done. unfold game_over, valid_guess. simpl.
        split; [done |]. left.
        split; [done |]. split; [done |]. split; [done |].
        exists fb. split; [done |].
        apply list_lookup_insert_eq. destruct H4 as [-> _]. done.
      * destruct (decide (GRID_ROWS ≤ current_row self + 1)).
        -- split; simpl; try done. unfold game_over, valid_guess. simpl.
           split; [done |]. right. done.
        -- split; simpl; try done. rewrite He. split; [lia | done].
    + unfold key_return. rewrite submit_wrong_length by done.
      by apply reject_Inv.
    + unfold key_return. rewrite submit_non_alpha by done.
      by apply reject_Inv.
    + unfold key_return. rewrite submit_unknown by done.
      by apply reject_Inv.
  - destruct (key_return_game_over self HI He) as [[_ ->]|[Hst ->]]; [done |].
    pose proof HI as [H1 H2 H3 H4 H5]. rewrite He in H5.
    split; simpl; try done. rewrite He.
    destruct H5 as [Hv [(_ & Hm & _)|(Hg & Hm & Hr)]].
    + unfold status in Hst. by rewrite Hm in Hst.
    + unfold game_over, valid_guess. simpl.
      split; [done |]. right. split; [done |]. split; [done | lia].
Qed.

End Invariant.

Section Loading.

Variable top_n_list : string → N → list string.
Variable zipf_frequency : string → string → Q.

Local Abbreviation loaded := (load_words top_n_list zipf_frequency).
Local Abbreviation kept := (keep zipf_frequency).
Local Abbreviation session := (reachable top_n_list zipf_frequency).

(** Every word of the list comes from a word of [wordfreq] that the
    comprehension keeps. *)
Lemma load_words_elem w :
  w ∈ loaded.1 ↔
  ∃ w0, w = Str.lower w0 ∧ w0 ∈ top_n_list "en" WORDS_SAMPLE
        ∧ kept w0 = true.
Proof.
  unfold load_words. simpl. rewrite list_elem_of_fmap.
  split; intros (w0 & Hw & H0); exists w0; (split; [done |]).
  - apply list_elem_of_filter in H0 as [Hk H0].
    split; [done |]. by apply Is_true_true.
  - destruct H0 as [H0 Hk]. apply list_elem_of_filter.
    split; [|done]. by apply Is_true_true.
Qed.

Lemma keep_good_word w0 : kept w0 = true → good_word (Str.lower w0).
Proof.
  unfold keep. intros Hk.
  apply andb_true_iff in Hk as [Hk _].
  apply andb_true_iff in Hk as [Hlen Halpha].
  apply bool_decide_eq_true in Hlen.
  split; [by rewrite StrFacts.lower_len |].
  split; [by rewrite StrFacts.isalpha_lower |].
  apply StrFacts.lower_lower.
Qed.

Lemma load_words_good : Forall good_word loaded.1.
Proof.
  apply Forall_forall. intros w Hw.
  apply load_words_elem in Hw as (w0 & -> & _ & Hk).
  by apply keep_good_word.
Qed.

Lemma init_Inv k self :
  __init__ top_n_list zipf_frequency k = Some self → Inv self.
Proof.
  unfold __init__.
  destruct loaded as [ws wset] eqn:Hload.
  apply start_game_Inv; simpl.
  - unfold load_words in Hload. by injection Hload as <- <-.
  - pose proof load_words_good as Hgood. by rewrite Hload in Hgood.
  - apply blank_tiles_shape.
Qed.

Lemma handle_Inv e self self' :
  Inv self → handle e self = Some self' → Inv self'.
Proof.
  intros HI. destruct e as [raw| |k]; simpl.
  - intros [= <-]. by apply type_text_Inv.
  - intros [= <-]. by apply key_return_Inv.
  - destruct HI. by apply start_game_Inv.
Qed.

Theorem reachable_Inv self : session self → Inv self.
Proof.
  induction 1 as [k self Hinit | e self self' _ IH Hstep].
  - by eapply init_Inv.
  - by eapply handle_Inv.
Qed.

(** No action of the player raises an exception. *)
Lemma reachable_no_exception self e :
  session self → is_Some (handle e self).
Proof.
  intros HI%reachable_Inv. destruct e as [raw| |k]; simpl; [done | done |].
  unfold _start_game.
  destruct (choice_is_Some k (words self)) as [s ->].
  { intros Hnil. pose proof (inv_secret _ HI) as Hs.
    rewrite Hnil in Hs. by apply elem_of_nil in Hs. }
  simpl. destruct self; simpl in *.
  rewrite (reset_tiles_shape tiles0); [done | apply (inv_grid _ HI)].
Qed.

End Loading.

(** ** Playing a guess *)

Section Playing.

Lemma accepts_not_rejects self guess msg :
  accepts self guess → ¬ rejects self msg.
Proof.
  intros (fb & _ & Ha) Hr. unfold rejects in Hr. rewrite Ha in Hr.
  assert (guess_timers fb guess = []) as Hts by congruence.
  unfold guess_timers in Hts. by destruct (paint_timers fb).
Qed.

Lemma Inv_accepts self :
  Inv self → valid_guess self (Str.lower (entry_text self)) →
  accepts self (Str.lower (entry_text self)).
Proof.
  intros HI Hv. pose proof (Inv_good_secret _ HI) as (Hlen & _).
  destruct (feedback_spec (secret self) (Str.lower (entry_text self)))
    as [Hfb _]; [destruct Hv; congruence |].
  destruct Hfb as (fb & Hfb & Hfblen & _); [by destruct Hv as [-> _] |].
  exists fb. split; [done |]. by rewrite (submit_valid _ Hv), Hfb.
Qed.

Lemma Inv_playing self :
  Inv self → status self = InProgress → entry_state self = normal.
Proof.
  intros HI Hst. pose proof (inv_phase _ HI) as Hph.
  destruct (entry_state self); [done |].
  destruct Hph as [_ [(_ & Hm & _)|(_ & Hm & _)]];
    unfold status in Hst; by rewrite Hm in Hst.
Qed.

Lemma Inv_word_set_good self w : Inv self → w ∈ word_set self → good_word w.
Proof.
  intros [Hset Hw _ _ _]. rewrite Hset, elem_of_list_to_set.
  by apply (proj1 (Forall_forall _ _) Hw).
Qed.

(** The secret, typed in any letter case, wins at once. *)
Lemma play_win self raw :
  Inv self → status self = InProgress → Str.lower raw = secret self →
  let s := play self raw in
  status s = Won
  ∧ message s = YouWon (current_row self + 1)
  ∧ current_row s = current_row self
  ∧ entry_state s = disabled
  ∧ secret s = secret self.
Proof.
  intros HI Hst Hraw. pose proof (Inv_playing _ HI Hst) as He.
  unfold play, type_text. rewrite He.
  destruct (key_return_playing (set_entry_text raw self))
    as (fb & _ & _ & Hkey); simpl.
  - pose proof (type_text_Inv raw _ HI) as HI'.
    unfold type_text in HI'. by rewrite He in HI'.
  - done.
  - rewrite Hraw. apply (Inv_secret_valid _ HI).
  - simpl in Hkey. rewrite Hkey, decide_True by done. done.
Qed.



End Playing.

(** ** The session of [Demo] *)

Module DemoFacts.
Import Demo.

Lemma game_reachable : reachable top_n_list zipf_frequency game.
Proof. apply (reach_init _ _ 0). by vm_compute. Defined.

Lemma lost_game_reachable : reachable top_n_list zipf_frequency lost_game.
Proof.
  apply (reachable_run _ _
           (six_misses ≫= λ raw, [KeyText raw; KeyReturn]) game).
  - apply game_reachable.
  - by vm_compute.
Defined.


End DemoFacts.

(** ** The event loop *)

Section RobustFacts.

(** The invariant of the settled sessions gives the one of the loop. *)
Lemma Inv_Robust self : Inv self → Robust self.
Proof.
  intros [H1 H2 H3 H4 H5]. split; try done.
  - intros He. by rewrite He in H5.
  - intros n Hm. destruct (entry_state self).
    + destruct H5 as [_ Hst]. unfold status in Hst. by rewrite Hm in Hst.
    + destruct H5 as [_ [(_ & Hw & _)|(_ & Hl & _)]]; congruence.
  - intros w Hm. destruct (entry_state self).
    + destruct H5 as [_ Hst]. unfold status in Hst. by rewrite Hm in Hst.
    + destruct H5 as [_ [(_ & Hw & _)|(_ & Hl & Hr)]]; [congruence |].
      rewrite Hl in Hm. by injection Hm as <-.
Qed.

Lemma paint_shape r c col g g' :
  paint r c col g = Some g' → grid_shape g → grid_shape g'.
Proof.
  unfold paint. intros Hp [Hrows Hcols].
  destruct (g !! r) as [row|] eqn:Hrow; simpl in Hp; [|done].
  destruct (set_item row c col) as [row'|] eqn:Hset; simpl in Hp; [|done].
  injection Hp as <-. apply grid_shape_insert; [done |].
  rewrite (set_item_length _ _ _ _ Hset).
  by apply (Forall_lookup_1 _ _ _ _ Hcols Hrow).
Qed.

Lemma Robust_type_text raw self : Robust self → Robust (type_text raw self).
Proof.
  intros [H1 H2 H3 H4 H5 H6 H7]. unfold type_text.
  destruct (entry_state self) eqn:He; [|by split; rewrite ?He].
  split; simpl; try done. by rewrite He.
Qed.

(** [_submit_guess] gives one of four results. *)
Lemma submit_cases self self' ts :
  _submit_guess self = Some (self', ts) →
  (¬ valid_guess self (Str.lower (entry_text self))
   ∧ ts = []
   ∧ ∃ msg, msg ∈ ["Enter exactly 5 letters"; "Letters only, please";
                   "Not a valid word"]
            ∧ self' = set_message (Text msg) self)
  ∨ (valid_guess self (Str.lower (entry_text self))
     ∧ self' = set_entry_state disabled self
     ∧ ∃ fb, _feedback (secret self) (Str.lower (entry_text self)) = Some fb
             ∧ ts = guess_timers fb (Str.lower (entry_text self))).
Proof.
  destruct (valid_guess_dec self (Str.lower (entry_text self)))
    as [Hv | [H | [[H1 H2] | (H1 & H2 & H3)]]].
  - rewrite (submit_valid _ Hv).
    destruct (_feedback _ _) as [fb|]; simpl; [|done].
    intros [= <- <-]. right. split; [done |]. split; [done |]. by exists fb.
  - rewrite submit_wrong_length by done. intros [= <- <-]. left.
    split; [by intros (? & _) |]. split; [done |].
    exists "Enter exactly 5 letters". split; [set_solver | done].
  - rewrite submit_non_alpha by done. intros [= <- <-]. left.
    split; [intros (_ & ? & _); congruence |]. split; [done |].
    exists "Letters only, please". split; [set_solver | done].
  - rewrite submit_unknown by done. intros [= <- <-]. left.
    split; [by intros (_ & _ & ?) |]. split; [done |].
    exists "Not a valid word". split; [set_solver | done].
Qed.

Lemma Robust_submit self self' ts :
  _submit_guess self = Some (self', ts) → Robust self → Robust self'.
Proof.
  intros Hsub [H1 H2 H3 H4 H5 H6 H7].
  destruct (submit_cases _ _ _ Hsub)
    as [(_ & _ & msg & _ & ->)|(_ & -> & _)]; split; simpl; try done.
  intros He. by destruct (H5 He).
Qed.

Lemma Robust_after_guess guess self :
  Robust self → Robust (_after_guess guess self).
Proof.
  intros [H1 H2 H3 H4 H5 H6 H7]. unfold _after_guess. simpl.
  destruct (decide (guess = secret self)).
  - split; simpl; try done. by intros n [= <-].
  - simpl. destruct (decide (GRID_ROWS ≤ current_row self + 1)).
    + split; simpl; try done. by intros w [= <-].
    + split; simpl; try done. intros _. split; [lia | done].
Qed.

Lemma Robust_run_job j self : Robust self → Robust (run_job j self).
Proof.
  intros HR. destruct j as [[i col|guess]|]; simpl; [| |done].
  - destruct (paint (current_row self) i col (tiles self)) as [g|] eqn:Hp;
      simpl; [|done].
    destruct HR as [H1 H2 H3 H4 H5 H6 H7]. split; simpl; try done.
    by eapply paint_shape.
  - by apply Robust_after_guess.
Qed.

Lemma Robust_start_game k self self' :
  _start_game k self = Some self' → Robust self → Robust self'.
Proof.
  intros Hstart [H1 H2 H3 H4 _ _ _].
  by apply Inv_Robust, (start_game_Inv k self).
Qed.

Lemma Robust_secret_len self : Robust self → Str.len (secret self) = GRID_COLS.
Proof.
  intros [_ Hw Hs _ _ _ _].
  by destruct (proj1 (Forall_forall _ _) Hw _ Hs) as (? & _).
Qed.


End RobustFacts.

Section LoopFacts.

Variable top_n_list : string → N → list string.
Variable zipf_frequency : string → string → Q.

Local Abbreviation in_loop := (loop_reachable top_n_list zipf_frequency).
Local Abbreviation session := (reachable top_n_list zipf_frequency).

Lemma loop_step_Robust s L L' :
  loop_step s L = Some L' → Robust (gui L) → Robust (gui L').
Proof.
  destruct s as [ms| |[raw| |k]]; simpl.
  - by intros [= <-].
  - destruct (queue L) as [|[due j] q]; [done |].
    destruct (due <=? clock L)%N; [|done]. intros [= <-]. simpl.
    apply Robust_run_job.
  - intros [= <-]. simpl. apply Robust_type_text.
  - destruct (_submit_guess (gui L)) as [[self' ts]|] eqn:Hsub; simpl; [|done].
    intros [= <-]. simpl. by eapply Robust_submit.
  - destruct (_start_game k (gui L)) as [self'|] eqn:Hstart; simpl; [|done].
    intros [= <-]. simpl. by eapply Robust_start_game.
Qed.

(** The invariant of the loop: it holds whatever the order of the player's
    actions and of the timers. *)
Theorem loop_reachable_Robust L : in_loop L → Robust (gui L).
Proof.
  induction 1 as [k self Hinit | s L L' _ IH Hstep].
  - simpl. by eapply Inv_Robust, init_Inv.
  - by eapply loop_step_Robust.
Qed.

Lemma loop_run_snoc ss s L :
  loop_run (ss ++ [s]) L = loop_run ss L ≫= loop_step s.
Proof. unfold loop_run. by rewrite foldl_app. Qed.

Lemma loop_run_None ss : foldl (λ o s, o ≫= loop_step s) None ss = None.
Proof. by induction ss. Qed.

Lemma loop_run_cons s ss L :
  loop_run (s :: ss) L = loop_step s L ≫= loop_run ss.
Proof.
  unfold loop_run. simpl. destruct (loop_step s L); simpl; [done |].
  apply loop_run_None.
Qed.

Lemma loop_run_app ss1 ss2 L :
  loop_run (ss1 ++ ss2) L = loop_run ss1 L ≫= loop_run ss2.
Proof.
  revert L. induction ss1 as [|s ss1 IH]; intros L; [done |].
  rewrite <- app_comm_cons, !loop_run_cons.
  destruct (loop_step s L); simpl; [apply IH | done].
Qed.

Lemma loop_reachable_run ss : ∀ L L',
  in_loop L → loop_run ss L = Some L' → in_loop L'.
Proof.
  induction ss as [|s ss IH] using rev_ind; intros L L' HL.
  - by intros [= <-].
  - rewrite loop_run_snoc.
    destruct (loop_run ss L) as [mid|] eqn:Hmid; simpl; [|done].
    intros Hs. eapply loop_next; [by eapply IH | done].
Qed.

End LoopFacts.

Section QueueFacts.

Lemma enqueue_snoc t q :
  Forall (λ u : N * Job, (u.1 ≤ t.1)%N) q → enqueue t q = q ++ [t].
Proof.
  induction q as [|u q IH]; [done |]. intros [Hu Hq]%Forall_cons. simpl.
  destruct (N.ltb_spec t.1 u.1) as [Hlt|_]; [lia |]. by rewrite IH.
Qed.

(** Timers registered with growing delays into a queue of timers due no
    later than the first of them go to its end, in their order. *)
Lemma after_all_snoc t ts : ∀ q,
  StronglySorted N.lt ts.*1 →
  (∀ u d, u ∈ q → d ∈ ts → (u.1 ≤ t + d.1)%N) →
  after_all t ts q = q ++ ((λ d : N * Job, ((t + d.1)%N, d.2)) <$> ts).
Proof.
  unfold after_all.
  induction ts as [|d ts IH]; intros q Hsort Hq; simpl.
  - by rewrite app_nil_r.
  - rewrite fmap_cons in Hsort. apply StronglySorted_inv in Hsort as [Hsort Hd].
    rewrite enqueue_snoc.
    + rewrite IH; [by rewrite <- app_assoc | done |].
      intros u d' [Hu| ->%list_elem_of_singleton]%elem_of_app Hd'.
      * apply Hq; [done | by apply list_elem_of_further].
      * simpl. assert (d.1 < d'.1)%N; [|lia].
        apply (proj1 (Forall_forall _ _) Hd). by apply list_elem_of_fmap_2.
    + apply Forall_forall. intros u Hu. simpl.
      apply Hq; [done | apply list_elem_of_here].
Qed.

Lemma submit_jobs_sorted self self' ts :
  _submit_guess self = Some (self', ts) →
  StronglySorted N.lt (submit_jobs ts).*1.
Proof.
  intros Hsub.
  destruct (submit_cases _ _ _ Hsub) as [(_ & -> & _)|(_ & _ & fb & _ & ->)].
  - repeat constructor.
  - pose proof (guess_timers_sorted fb (Str.lower (entry_text self))) as Hs.
    unfold submit_jobs.
    destruct (guess_timers fb _) as [|t ts'] eqn:Hg; [repeat constructor |].
    by rewrite <- list_fmap_compose.
Qed.

(** What a run of the loop alone does: it fires timers from the front of
    the queue. *)
Lemma quiet_run ss : ∀ L L',
  Forall quiet ss → loop_run ss L = Some L' →
  ∃ fired, queue L = fired ++ queue L'
           ∧ gui L' = foldl (λ self d, run_job d.2 self) (gui L) fired.
Proof.
  induction ss as [|s ss IH] using rev_ind; intros L L' Hq.
  - intros [= <-]. by exists [].
  - apply Forall_app in Hq as [Hq [Hs _]%Forall_cons].
    rewrite loop_run_snoc.
    destruct (loop_run ss L) as [mid|] eqn:Hmid; simpl; [|done].
    destruct (IH L mid Hq Hmid) as (fired & Hqueue & Hgui).
    destruct s as [ms| |e]; simpl; [| |done].
    + intros [= <-]. by exists fired.
    + destruct (queue mid) as [|[due j] q] eqn:Hqm; [done |].
      destruct (due <=? clock mid)%N; [|done]. intros [= <-]. simpl.
      exists (fired ++ [(due, j)]). rewrite <- app_assoc. split; [done |].
      by rewrite foldl_app, <- Hgui.
Qed.

(** Timers that are due all fire. *)
Lemma fire_all q : ∀ self t,
  Forall (λ d : N * Job, (d.1 ≤ t)%N) q →
  loop_run (replicate (length q) Fire) (mkLoop self t q)
  = Some (mkLoop (foldl (λ self d, run_job d.2 self) self q) t []).
Proof.
  induction q as [|[due j] q IH]; intros self t Hq; [done |].
  apply Forall_cons in Hq as [Hdue Hq]. simpl replicate.
  rewrite loop_run_cons. simpl.
  destruct (N.leb_spec due t) as [_|Hlt]; [|simpl in Hdue; lia]. simpl.
  by apply IH.
Qed.

Lemma run_jobs_calls ts self :
  foldl (λ self d, run_job d.2 self) self
    ((λ t : Timer, (t.1, Call t.2)) <$> ts)
  = run_timers ts self.
Proof.
  revert self. induction ts as [|t ts IH]; intros self; [done |].
  simpl. apply IH.
Qed.

Lemma run_jobs_offset t jobs self :
  foldl (λ self d, run_job d.2 self) self
    ((λ d : N * Job, ((t + d.1)%N, d.2)) <$> jobs)
  = foldl (λ self d, run_job d.2 self) self jobs.
Proof.
  revert self. induction jobs as [|d jobs IH]; intros self; [done |].
  simpl. apply IH.
Qed.

(** The timers of one Return, run: this is what [key_return] does. *)
Lemma run_submit_jobs self self' ts :
  _submit_guess self = Some (self', ts) →
  foldl (λ self d, run_job d.2 self) self' (submit_jobs ts) = key_return self.
Proof.
  intros Hsub. unfold key_return. rewrite Hsub.
  destruct ts as [|t ts]; [done |]. apply run_jobs_calls.
Qed.

(** A Return with no timer waiting, and then the loop alone until the
    queue is empty again: the object is the one [key_return] gives. *)
Lemma key_return_settles L L1 L2 ss :
  queue L = [] →
  loop_step (Key KeyReturn) L = Some L1 →
  Forall quiet ss → loop_run ss L1 = Some L2 → queue L2 = [] →
  gui L2 = key_return (gui L).
Proof.
  intros Hempty Hret Hq Hrun Hdone. simpl in Hret.
  destruct (_submit_guess (gui L)) as [[self' ts]|] eqn:Hsub; simpl in Hret;
    [|done].
  injection Hret as <-.
  destruct (quiet_run ss _ _ Hq Hrun) as (fired & Hqueue & ->).
  simpl in Hqueue. rewrite Hdone, app_nil_r, Hempty in Hqueue.
  rewrite after_all_snoc in Hqueue;
    [|by eapply submit_jobs_sorted | by intros u d ?%elem_of_nil].
  simpl in Hqueue. rewrite <- Hqueue. simpl.
  rewrite run_jobs_offset. by apply run_submit_jobs.
Qed.

Lemma misplaced_pass_length g : ∀ i fb sc fb' sc',
  for_enumerate misplaced_body i g (fb, sc) = Some (fb', sc') →
  length fb' = length fb.
Proof.
  induction g as [|ch g IH]; intros i fb sc fb' sc'; simpl.
  - by intros [= -> ->].
  - destruct (misplaced_body i ch (fb, sc)) as [[fb1 sc1]|] eqn:Hbody; [|done].
    intros Hrun. apply IH in Hrun. rewrite Hrun.
    unfold misplaced_body in Hbody. simpl in Hbody.
    destruct (fb !! i) as [col|] eqn:Hcol; simpl in Hbody; [|done].
    pose proof (lookup_lt_Some _ _ _ Hcol) as Hlt.
    destruct (misplaced_body_spec i ch fb sc Hlt) as (fb2 & sc2 & H2 & Hl2 & _).
    unfold misplaced_body in H2. simpl in H2. rewrite Hcol in H2. simpl in H2.
    congruence.
Qed.

Lemma feedback_length s g fb : _feedback s g = Some fb → length fb = GRID_COLS.
Proof.
  unfold _feedback.
  destruct (for_enumerate (exact_body _) 0 _ _) as [[fb1 sc1]|] eqn:H1;
    simpl; [|done].
  destruct (for_enumerate misplaced_body 0 _ _) as [[fb2 sc2]|] eqn:H2;
    simpl; [|done].
  intros [= <-]. apply misplaced_pass_length in H2.
  apply exact_pass_length in H1. rewrite H2, H1. apply length_replicate.
Qed.

(** No timer of a Return is due later than 950 ms after it. *)
Lemma submit_jobs_due self self' ts :
  _submit_guess self = Some (self', ts) →
  Forall (λ d : N * Job, (d.1 ≤ 950)%N) (submit_jobs ts).
Proof.
  intros Hsub.
  destruct (submit_cases _ _ _ Hsub) as [(_ & -> & _)|(_ & _ & fb & Hfb & ->)].
  - repeat constructor. simpl. lia.
  - apply feedback_length, list_of_length_5 in Hfb
      as (c0 & c1 & c2 & c3 & c4 & ->).
    unfold submit_jobs, guess_timers, paint_timers, ANIM_DELAY. simpl.
    repeat (apply Forall_cons; split; [simpl; lia |]). constructor.
Qed.

End QueueFacts.

Section Embedding.

Variable top_n_list : string → N → list string.
Variable zipf_frequency : string → string → Q.

Local Abbreviation in_loop := (loop_reachable top_n_list zipf_frequency).
Local Abbreviation session := (reachable top_n_list zipf_frequency).

(** A Return with no timer waiting, 950 ms, and the timers fired. *)
Lemma loop_run_key_return self t :
  is_Some (_submit_guess self) →
  ∃ n, loop_run (Key KeyReturn :: Wait 950 :: replicate n Fire)
         (mkLoop self t [])
       = Some (mkLoop (key_return self) (t + 950) []).
Proof.
  intros [[self' ts] Hsub].
  exists (length (submit_jobs ts)).
  rewrite loop_run_cons. cbn [loop_step gui clock queue]. rewrite Hsub.
  cbn [mbind option_bind fst snd]. rewrite loop_run_cons.
  cbn [loop_step mbind option_bind gui clock queue].
  rewrite after_all_snoc;
    [|by eapply submit_jobs_sorted | by intros u d ?%elem_of_nil].
  rewrite app_nil_l.
  rewrite <- (length_fmap (λ d : N * Job, ((t + d.1)%N, d.2))).
  rewrite fire_all.
  - by rewrite run_jobs_offset, (run_submit_jobs _ _ _ Hsub).
  - apply Forall_fmap. eapply Forall_impl; [by eapply submit_jobs_due |].
    intros d Hd. simpl in *. lia.
Qed.

(** The sessions in which every guess is played to its end before the next
    action are among the runs of the loop. *)
Theorem reachable_in_loop self :
  session self → ∃ t, in_loop (mkLoop self t []).
Proof.
  induction 1 as [k self Hinit | e self self' Hs [t IH] Hstep].
  - exists 0%N. by eapply loop_init.
  - destruct e as [raw| |k]; simpl in Hstep.
    + injection Hstep as <-. exists t.
      by apply (loop_next _ _ (Key (KeyText raw)) _ _ IH).
    + injection Hstep as <-.
      destruct (loop_run_key_return self t) as [n Hrun].
      { pose proof (reachable_Inv _ _ _ Hs) as HI.
        destruct (valid_guess_dec self (Str.lower (entry_text self)))
          as [Hv | [H | [[H1 H2] | (H1 & H2 & H3)]]].
        - by destruct (Inv_accepts _ HI Hv) as (fb & _ & ->).
        - by rewrite submit_wrong_length.
        - by rewrite submit_non_alpha.
        - by rewrite submit_unknown. }
      exists (t + 950)%N. by eapply loop_reachable_run.
    + exists t. apply (loop_next _ _ (Key (NewGame k)) _ _ IH).
      simpl. by rewrite Hstep.
Qed.

End Embedding.

Module DemoLoopFacts.
Import DemoLoop.

Lemma start_in_loop :
  loop_reachable Demo.top_n_list Demo.zipf_frequency start.
Proof. apply (loop_init _ _ 0). by vm_compute. Defined.

Lemma typed_in_loop :
  loop_reachable Demo.top_n_list Demo.zipf_frequency typed.
Proof.
  apply (loop_next _ _ (Key (KeyText "llama")) start);
    [apply start_in_loop | reflexivity].
Defined.

Lemma lost_in_loop :
  loop_reachable Demo.top_n_list Demo.zipf_frequency lost.
Proof.
  apply (loop_reachable_run _ _ (Demo.six_misses ≫= played) start).
  - apply start_in_loop.
  - by vm_compute.
Defined.

End DemoLoopFacts.

(** A second Return during the animation of the fifth guess: its own
    [_after_guess] counts the guess again, the last row is never painted
    and the game is lost with an empty entry. *)
Example double_return_skips_a_row :
  ∃ L, loop_run DemoLoop.double_return DemoLoop.start = Some L
       ∧ queue L = []
       ∧ status (gui L) = Lost
       ∧ current_row (gui L) = 6
       ∧ entry_text (gui L) = ""
       ∧ tiles (gui L) !! 5 = Some (replicate GRID_COLS Absent).
Proof. eexists. split; [by vm_compute |]. by vm_compute. Qed.

(** * The claims *)

(** ** Guess evaluation *)

(** Claim C1.  For the secret "ALLOY" and the guess "LLAMA", both in lower
    case as the program compares them, the evaluation is Present, Correct,
    Present, Absent, Absent.  The first loop marks index 1 only and takes
    that L out of [secret_chars]; the second loop then finds the other L
    for index 0 and the single A for index 2, and nothing for indices 3
    and 4. *)
Theorem feedback_alloy_llama :
  let secret := Str.lower "ALLOY" in
  let guess := Str.lower "LLAMA" in
  for_enumerate (exact_body (Str.chars secret)) 0 (Str.chars guess)
    (replicate GRID_COLS Absent, Some <$> Str.chars secret)
  = Some ([Absent; Correct; Absent; Absent; Absent],
          [Some "a"; None; Some "l"; Some "o"; Some "y"]%char)
  ∧ _feedback secret guess
    = Some [Present; Correct; Present; Absent; Absent].
Proof. split; reflexivity. Qed.

(** Claim C2, as the program has it.  For a secret and a guess of one length
    that is at most [GRID_COLS] = 5, the evaluation is a sequence of exactly
    5 verdicts (so of the length of the words when they have 5 letters, as
    the secret and every validated guess have), and its number of Correct
    verdicts is the number of positions at which the two words agree.  For
    two words of one length above 5 the evaluation raises [IndexError]. *)
Theorem feedback_length_and_correct_count (s g : string) :
  Str.len s = Str.len g →
  (Str.len g ≤ GRID_COLS →
     ∃ fb, _feedback s g = Some fb
           ∧ length fb = GRID_COLS
           ∧ count_correct fb = matches (Str.chars s) (Str.chars g))
  ∧ (GRID_COLS < Str.len g → _feedback s g = None).
Proof. apply feedback_spec. Qed.

Lemma feedback_length_and_correct_count_witness :
  Str.len "alloy" = Str.len "llama"
  ∧ ∃ fb, _feedback "alloy" "llama" = Some fb
          ∧ length fb = GRID_COLS
          ∧ count_correct fb
            = matches (Str.chars "alloy") (Str.chars "llama").
Proof.
  split; [reflexivity |].
  apply (feedback_length_and_correct_count "alloy" "llama");
    [reflexivity | unfold GRID_COLS; simpl; lia].
Defined.

(** Claim C2, as it is stated, fails for words that do not have 5 letters:
    two words of 2 letters get 5 verdicts, and two words of 6 letters get
    none. *)
Lemma feedback_length_counterexample :
  Str.len "ab" = Str.len "ab"
  ∧ _feedback "ab" "ab" = Some [Correct; Correct; Absent; Absent; Absent]
  ∧ length [Correct; Correct; Absent; Absent; Absent] ≠ Str.len "ab"
  ∧ Str.len "planet" = Str.len "plants"
  ∧ _feedback "planet" "plants" = None.
Proof. repeat split; try reflexivity. simpl. lia. Qed.

(** ** Validation *)

(** Claim C3.  The checks of a guess run in the order length, letters,
    word set, on the entry text in lower case, and the first that fails
    gives the message: a guess whose length is not 5 gets "Enter exactly 5
    letters" whatever its characters are; a guess of length 5 with a
    character that is not a letter gets "Letters only, please"; a guess of 5
    letters that is not in the word set gets "Not a valid word". *)
Theorem validation_order (self : WordleGUI) :
  let guess := Str.lower (entry_text self) in
  (Str.len guess ≠ 5 → rejects self "Enter exactly 5 letters")
  ∧ (Str.len guess = 5 → Str.isalpha guess = false →
     rejects self "Letters only, please")
  ∧ (Str.len guess = 5 → Str.isalpha guess = true →
     guess ∉ word_set self →
     rejects self "Not a valid word").
Proof.
  cbv zeta. unfold rejects. split; [|split].
  - apply submit_wrong_length.
  - apply submit_non_alpha.
  - apply submit_unknown.
Qed.

Lemma validation_order_witness :
  rejects (set_entry_text "a1" Demo.game) "Enter exactly 5 letters"
  ∧ rejects (set_entry_text "all0y" Demo.game) "Letters only, please"
  ∧ rejects (set_entry_text "wordy" Demo.game) "Not a valid word".
Proof.
  split; [|split].
  - apply (validation_order (set_entry_text "a1" Demo.game)). compute_done.
  - apply (validation_order (set_entry_text "all0y" Demo.game));
      reflexivity.
  - apply (validation_order (set_entry_text "wordy" Demo.game));
      [reflexivity | reflexivity | compute_done].
Defined.

(** Claim C7.  A rejected submission changes nothing but the message
    label: the grid, the row index, the secret, the word list and the entry
    are as before, no timer is started, and a game in progress stays in
    progress.  The message is one of the three rejection texts. *)
Theorem rejected_keeps_state (self : WordleGUI) :
  ¬ valid_guess self (Str.lower (entry_text self)) →
  ∃ msg self',
    msg ∈ ["Enter exactly 5 letters"; "Letters only, please";
           "Not a valid word"]
    ∧ _submit_guess self = Some (self', [])
    ∧ key_return self = self'
    ∧ message self' = Text msg
    ∧ tiles self' = tiles self
    ∧ current_row self' = current_row self
    ∧ secret self' = secret self
    ∧ words self' = words self
    ∧ word_set self' = word_set self
    ∧ entry_text self' = entry_text self
    ∧ entry_state self' = entry_state self
    ∧ (status self = InProgress → status self' = InProgress).
Proof.
  intros Hbad.
  destruct (valid_guess_dec self (Str.lower (entry_text self)))
    as [Hv | [H | [[H1 H2] | (H1 & H2 & H3)]]]; [done | | |].
  - exists "Enter exactly 5 letters", (set_message (Text "Enter exactly 5 letters") self).
    unfold key_return. rewrite submit_wrong_length by done.
    repeat split; try done. set_solver.
  - exists "Letters only, please", (set_message (Text "Letters only, please") self).
    unfold key_return. rewrite submit_non_alpha by done.
    repeat split; try done. set_solver.
  - exists "Not a valid word", (set_message (Text "Not a valid word") self).
    unfold key_return. rewrite submit_unknown by done.
    repeat split; try done. set_solver.
Qed.

Lemma rejected_keeps_state_witness :
  ∃ msg self',
    msg ∈ ["Enter exactly 5 letters"; "Letters only, please";
           "Not a valid word"]
    ∧ _submit_guess (set_entry_text "wordy" Demo.game) = Some (self', [])
    ∧ key_return (set_entry_text "wordy" Demo.game) = self'
    ∧ message self' = Text msg
    ∧ tiles self' = tiles (set_entry_text "wordy" Demo.game)
    ∧ current_row self' = current_row (set_entry_text "wordy" Demo.game)
    ∧ secret self' = secret (set_entry_text "wordy" Demo.game)
    ∧ words self' = words (set_entry_text "wordy" Demo.game)
    ∧ word_set self' = word_set (set_entry_text "wordy" Demo.game)
    ∧ entry_text self' = entry_text (set_entry_text "wordy" Demo.game)
    ∧ entry_state self' = entry_state (set_entry_text "wordy" Demo.game)
    ∧ (status (set_entry_text "wordy" Demo.game) = InProgress →
       status self' = InProgress).
Proof.
  apply (rejected_keeps_state (set_entry_text "wordy" Demo.game)).
  intros (_ & _ & Hin). revert Hin. compute_done.
Defined.

(** Claim C8, as the program has it.  [_submit_guess] puts the raw text in
    lower case before the checks and does not trim it: in a session, a raw
    text whose lower-case form is a word of the word set is accepted
    whatever the case of its letters, and a raw text whose lower-case form
    does not have 5 characters, as that of a word with white space around
    it, is rejected with "Enter exactly 5 letters". *)
Theorem submit_lowers_without_trimming
    (top_n_list : string → N → list string)
    (zipf_frequency : string → string → Q) (self : WordleGUI) :
  reachable top_n_list zipf_frequency self →
  (Str.lower (entry_text self) ∈ word_set self →
   accepts self (Str.lower (entry_text self)))
  ∧ (Str.len (Str.lower (entry_text self)) ≠ GRID_COLS →
     rejects self "Enter exactly 5 letters").
Proof.
  intros HI%reachable_Inv. split.
  - intros Hin. apply (Inv_accepts _ HI).
    destruct (Inv_word_set_good _ _ HI Hin) as (? & ? & _). by split.
  - apply submit_wrong_length.
Qed.

Lemma submit_lowers_without_trimming_witness :
  accepts (type_text "LlaMa" Demo.game) "llama"
  ∧ rejects (type_text " llama " Demo.game) "Enter exactly 5 letters".
Proof.
  split.
  - apply (submit_lowers_without_trimming Demo.top_n_list
             Demo.zipf_frequency (type_text "LlaMa" Demo.game)).
    + apply (reach_step _ _ (KeyText "LlaMa") Demo.game);
        [apply DemoFacts.game_reachable | reflexivity].
    + compute_done.
  - apply (submit_lowers_without_trimming Demo.top_n_list
             Demo.zipf_frequency (type_text " llama " Demo.game)).
    + apply (reach_step _ _ (KeyText " llama ") Demo.game);
        [apply DemoFacts.game_reachable | reflexivity].
    + compute_done.
Defined.

(** Claim C8, as it is stated, fails: the text " llama " trims to the word
    "llama" of the word set, and the submission is rejected for its
    length. *)
Lemma submit_trim_counterexample :
  let self := type_text " llama " Demo.game in
  reachable Demo.top_n_list Demo.zipf_frequency self
  ∧ Str.strip (entry_text self) = "llama"
  ∧ valid_guess self (Str.lower (Str.strip (entry_text self)))
  ∧ rejects self "Enter exactly 5 letters"
  ∧ ¬ accepts self (Str.lower (Str.strip (entry_text self))).
Proof.
  assert (rejects (type_text " llama " Demo.game) "Enter exactly 5 letters")
    as Hrej by (apply submit_wrong_length; compute_done).
  cbv zeta. split; [|split; [|split; [|split]]].
  - apply (reach_step _ _ (KeyText " llama ") Demo.game);
      [apply DemoFacts.game_reachable | reflexivity].
  - reflexivity.
  - repeat split; compute_done.
  - exact Hrej.
  - intros Ha. exact (accepts_not_rejects _ _ _ Ha Hrej).
Qed.

(** ** The word list *)

(** Claim C9.  Every word of the word set that [load_words] stores is in
    lower case, has exactly 5 characters, all of them letters, and is the
    lower-case form of a word of [wordfreq] whose Zipf frequency is at least
    [MIN_ZIPF]; so its own frequency is at least [MIN_ZIPF], [wordfreq]
    giving a word and its lower-case form the same frequency. *)
Theorem load_words_sound
    (top_n_list : string → N → list string)
    (zipf_frequency : string → string → Q) (w : string) :
  w ∈ (load_words top_n_list zipf_frequency).2 →
  Str.lower w = w
  ∧ Str.len w = 5
  ∧ Str.isalpha w = true
  ∧ (∃ w0, w0 ∈ top_n_list "en" WORDS_SAMPLE ∧ w = Str.lower w0
           ∧ (MIN_ZIPF <= zipf_frequency w0 "en")%Q)
  ∧ ((∀ x, (zipf_frequency (Str.lower x) "en" == zipf_frequency x "en")%Q) →
     (MIN_ZIPF <= zipf_frequency w "en")%Q).
Proof.
  intros Hw.
  assert (w ∈ (load_words top_n_list zipf_frequency).1) as Hin
    by (by apply elem_of_list_to_set in Hw).
  apply load_words_elem in Hin as (w0 & -> & Hin & Hk).
  destruct (keep_good_word _ _ Hk) as (Hlen & Halpha & Hlow).
  assert (MIN_ZIPF <= zipf_frequency w0 "en")%Q as Hz.
  { unfold keep in Hk. apply andb_true_iff in Hk as [_ Hk].
    by apply Qle_bool_iff. }
  split; [done |]. split; [done |]. split; [done |]. split.
  - by exists w0.
  - intros Hcase. by rewrite (Hcase w0).
Qed.

(** The frequency function of [Demo] is one that does not look at the case
    of the letters. *)
Lemma demo_zipf_ignores_case x :
  (Demo.zipf_frequency (Str.lower x) "en" == Demo.zipf_frequency x "en")%Q.
Proof.
  unfold Demo.zipf_frequency. by rewrite StrFacts.lower_lower.
Qed.

Lemma load_words_sound_witness :
  "alloy" ∈ (load_words Demo.top_n_list Demo.zipf_frequency).2
  ∧ Str.lower "alloy" = "alloy"
  ∧ Str.len "alloy" = 5
  ∧ Str.isalpha "alloy" = true
  ∧ (MIN_ZIPF <= Demo.zipf_frequency "alloy" "en")%Q.
Proof.
  assert ("alloy" ∈ (load_words Demo.top_n_list Demo.zipf_frequency).2)
    as Hin by compute_done.
  destruct (load_words_sound Demo.top_n_list Demo.zipf_frequency "alloy" Hin)
    as (Hlow & Hlen & Halpha & _ & Hzipf).
  split; [exact Hin |]. split; [exact Hlow |]. split; [exact Hlen |].
  split; [exact Halpha |]. apply Hzipf. apply demo_zipf_ignores_case.
Defined.

(** The threshold is checked on the word as [wordfreq] lists it, before
    [lower()]: a frequency function that tells the cases apart can give the
    stored word a frequency below [MIN_ZIPF]. *)
Example load_words_frequency_of_listed_word :
  let top := λ (_ : string) (_ : N), ["HELLO"] in
  let zipf := λ (w _ : string), if decide (w = "HELLO") then 5%Q else 0%Q in
  (load_words top zipf).1 = ["hello"]
  ∧ ¬ (MIN_ZIPF <= zipf "hello" "en")%Q.
Proof. split; [reflexivity |]. by vm_compute. Qed.

(** ** Sessions *)

Section SessionClaims.

Variable top_n_list : string → N → list string.
Variable zipf_frequency : string → string → Q.

Local Abbreviation session := (reachable top_n_list zipf_frequency).




(** Claim C10.  In every state of a session the secret is a word of the
    word list and of the word set; typed into the entry it passes the
    three checks, and in a game in progress it wins. *)
Theorem secret_is_accepted (self : WordleGUI) :
  session self →
  secret self ∈ words self
  ∧ secret self ∈ word_set self
  ∧ (entry_text self = secret self →
     ¬ rejects self "Not a valid word" ∧ accepts self (secret self))
  ∧ (status self = InProgress → status (play self (secret self)) = Won).
Proof.
  intros HI%reachable_Inv.
  pose proof (Inv_good_secret _ HI) as (_ & _ & Hlow).
  split; [apply (inv_secret _ HI) |].
  split; [by apply Inv_secret_in_set |]. split.
  - intros Htext.
    assert (accepts self (secret self)) as Ha.
    { assert (Str.lower (entry_text self) = secret self) as Hg
        by (by rewrite Htext).
      pose proof (Inv_accepts _ HI) as Ha. rewrite Hg in Ha.
      apply Ha. by apply Inv_secret_valid. }
    split; [by apply (accepts_not_rejects _ _ _ Ha) | done].
  - intros Hst. by apply (play_win self (secret self) HI Hst Hlow).
Qed.

End SessionClaims.





Lemma secret_is_accepted_witness :
  secret Demo.game ∈ words Demo.game
  ∧ secret Demo.game ∈ word_set Demo.game
  ∧ accepts (type_text "alloy" Demo.game) (secret Demo.game)
  ∧ status (play Demo.game (secret Demo.game)) = Won.
Proof.
  destruct (secret_is_accepted Demo.top_n_list Demo.zipf_frequency Demo.game
              DemoFacts.game_reachable) as (Hw & Hs & _ & Hwin).
  split; [exact Hw |]. split; [exact Hs |]. split; [|apply Hwin; reflexivity].
  apply (secret_is_accepted Demo.top_n_list Demo.zipf_frequency
           (type_text "alloy" Demo.game)); [|reflexivity].
  apply (reach_step _ _ (KeyText "alloy") Demo.game);
    [apply DemoFacts.game_reachable | reflexivity].
Defined.

(** * Further properties *)

(** ** Loops *)

Section Loops.

Context {A S : Type} (body : nat → A → S → option S) (P : nat → S → Prop).

(** A property of the loop state that each round carries from its index to
    the next holds when the loop ends. *)
Lemma for_enumerate_inv_from (g : list A) :
  (∀ i x s s', g !! i = Some x → P i s → body i x s = Some s' → P (Datatypes.S i) s') →
  ∀ xs i s s',
    drop i g = xs → i ≤ length g → P i s →
    for_enumerate body i xs s = Some s' → P (length g) s'.
Proof.
  intros Hstep xs. induction xs as [|x xs IH]; intros i s s' Hdrop Hi HP; simpl.
  - intros [= <-]. apply drop_nil_inv in Hdrop as Hge.
    by replace (length g) with i by lia.
  - assert (g !! i = Some x) as Hx.
    { rewrite <- (Nat.add_0_r i), <- lookup_drop, Hdrop. done. }
    destruct (body i x s) as [s1|] eqn:Hbody; [|done].
    apply IH.
    + erewrite drop_S in Hdrop by done. by injection Hdrop.
    + apply lookup_lt_Some in Hx. lia.
    + by eapply Hstep.
Qed.

Lemma for_enumerate_inv (g : list A) s s' :
  (∀ i x s s', g !! i = Some x → P i s → body i x s = Some s' → P (Datatypes.S i) s') →
  P 0 s → for_enumerate body 0 g s = Some s' → P (length g) s'.
Proof.
  intros Hstep HP. apply (for_enumerate_inv_from g Hstep g 0); [done | lia | done].
Qed.

End Loops.

(** ** Guess evaluation, letter by letter *)

Section Counting.

Lemma letter_count_cons c x l :
  letter_count c (x :: l) = (if decide (x = c) then 1 else 0) + letter_count c l.
Proof. unfold letter_count. rewrite filter_cons. by destruct (decide (x = c)). Qed.

Lemma left_count_cons c y sc :
  left_count c (y :: sc)
  = (if decide (y = Some c) then 1 else 0) + left_count c sc.
Proof. unfold left_count. rewrite filter_cons. by destruct (decide (y = Some c)). Qed.

Lemma left_count_fmap c l : left_count c (Some <$> l) = letter_count c l.
Proof.
  induction l as [|x l IH]; [done |].
  rewrite fmap_cons, left_count_cons, letter_count_cons, IH.
  destruct (decide (x = c)), (decide (Some x = Some c)); congruence.
Qed.

(** Consuming one occurrence. *)
Lemma left_count_consume c ch sc j :
  sc !! j = Some (Some ch) →
  left_count c (<[j := None]> sc) + (if decide (ch = c) then 1 else 0)
  = left_count c sc.
Proof.
  revert j. induction sc as [|y sc IH]; intros j Hj; [done |].
  destruct j as [|j]; simpl in *.
  - injection Hj as ->. rewrite !left_count_cons.
    rewrite (decide_False (P := None = Some c)) by done.
    destruct (decide (ch = c)), (decide (Some ch = Some c)); congruence || lia.
  - rewrite !left_count_cons. specialize (IH j Hj). lia.
Qed.

Lemma left_count_0 c sc : contains c sc = false → left_count c sc = 0.
Proof.
  induction sc as [|y sc IH]; [done |]. simpl.
  rewrite left_count_cons. case_decide; [done |]. intros Hc. by rewrite IH.
Qed.

Lemma contains_consume c sc j :
  contains c sc = false → contains c (<[j := None]> sc) = false.
Proof.
  revert j. induction sc as [|y sc IH]; intros j; [done |]. simpl.
  case_decide; [done |]. intros Hc.
  destruct j as [|j]; simpl.
  - done.
  - rewrite decide_False by done. by apply IH.
Qed.

Lemma index_lookup ch sc j : index ch sc = Some j → sc !! j = Some (Some ch).
Proof.
  revert j. induction sc as [|y sc IH]; intros j; [done |]. simpl.
  case_decide as Hy.
  - intros [= <-]. by rewrite Hy.
  - destruct (index ch sc) as [k|]; [|done]. simpl. intros [= <-].
    by apply IH.
Qed.

Lemma contains_elem_of ch sc : contains ch sc = true → Some ch ∈ sc.
Proof.
  induction sc as [|y sc IH]; [done |]. simpl.
  case_decide as Hy; [rewrite Hy; intros _; apply list_elem_of_here |].
  intros Hc. apply list_elem_of_further. by apply IH.
Qed.

Lemma marked_cons c x col g fb :
  marked c (x :: g) (col :: fb)
  = (if decide (x = c ∧ col ≠ Absent) then 1 else 0) + marked c g fb.
Proof.
  unfold marked. simpl. rewrite filter_cons. simpl.
  by destruct (decide (x = c ∧ col ≠ Absent)).
Qed.

Lemma marked_blank c g n : marked c g (replicate n Absent) = 0.
Proof.
  revert n. induction g as [|x g IH]; intros n; [done |].
  destruct n as [|n]; [done |]. simpl. rewrite marked_cons, IH.
  rewrite decide_False; [done | by intros [_ ?]].
Qed.

(** Colouring a tile that was grey. *)
Lemma marked_colour c g fb i ch new :
  g !! i = Some ch → fb !! i = Some Absent → new ≠ Absent →
  marked c g (<[i := new]> fb)
  = marked c g fb + (if decide (ch = c) then 1 else 0).
Proof.
  revert fb i. induction g as [|x g IH]; intros fb i Hg Hfb Hnew; [done |].
  destruct fb as [|col fb]; [done |].
  destruct i as [|i]; simpl in *.
  - injection Hg as ->. injection Hfb as ->. rewrite !marked_cons.
    rewrite (decide_False (P := ch = c ∧ Absent ≠ Absent)) by (by intros [_ ?]).
    destruct (decide (ch = c)), (decide (ch = c ∧ new ≠ Absent)); tauto || lia.
  - rewrite !marked_cons, (IH fb i Hg Hfb Hnew). lia.
Qed.

Lemma marked_le_guess c g fb : marked c g fb ≤ letter_count c g.
Proof.
  revert fb. induction g as [|x g IH]; intros fb; [done |].
  destruct fb as [|col fb]; [unfold marked; simpl; lia |].
  rewrite marked_cons, letter_count_cons. specialize (IH fb).
  destruct (decide (x = c ∧ col ≠ Absent)) as [[? _]|];
    destruct (decide (x = c)); try done; lia.
Qed.

(** Either every tile with the letter [c] is coloured, or one is grey. *)
Lemma marked_all_or_grey c g fb :
  length g ≤ length fb →
  marked c g fb = letter_count c g
  ∨ ∃ j, g !! j = Some c ∧ fb !! j = Some Absent.
Proof.
  revert fb. induction g as [|x g IH]; intros fb Hlen; [by left |].
  destruct fb as [|col fb]; simpl in Hlen; [lia |].
  destruct (decide (x = c ∧ col = Absent)) as [[-> ->]|Hx].
  { right. by exists 0. }
  destruct (IH fb) as [Heq|(j & Hj1 & Hj2)]; [lia | |].
  - left. rewrite marked_cons, letter_count_cons, Heq.
    destruct (decide (x = c ∧ col ≠ Absent)), (decide (x = c)); tauto.
  - right. by exists (Datatypes.S j).
Qed.

End Counting.

Section Passes.

Variables sec g : list ascii.

Lemma Pass1_start :
  Pass1 sec g 0 (replicate GRID_COLS Absent, Some <$> sec).
Proof.
  assert (∀ j col, replicate GRID_COLS Absent !! j = Some col → col = Absent)
    as Hblank by (intros j col [-> _]%lookup_replicate; done).
  split; [split |]; cbn [fst snd].
  - intros j col ->%Hblank. auto.
  - intros j x. rewrite list_lookup_fmap.
    destruct (sec !! j); simpl; congruence.
  - by intros j ?%Hblank.
  - by intros j ?%Hblank.
  - intros c. by rewrite left_count_fmap, marked_blank.
  - split; [|split; [|split]].
    + intros j _ Hj. rewrite length_replicate in Hj.
      by apply lookup_replicate_2.
    + intros j _. by rewrite list_lookup_fmap.
    + intros j ch Hj. lia.
    + by intros j ?%Hblank.
Qed.

Lemma Pass1_step i ch m m' :
  g !! i = Some ch → Pass1 sec g i m → exact_body sec i ch m = Some m' →
  Pass1 sec g (S i) m'.
Proof.
  destruct m as [fb sc]. intros Hg ([Hcol Hsec Hcor Hpre Hbud] & Hfb & Hsc & Hdone & Hno).
  simpl in *. unfold exact_body. simpl.
  destruct (sec !! i) as [s|] eqn:Hs; simpl; [|done].
  destruct (decide (ch = s)) as [->|Hne].
  - unfold set_item.
    destruct (decide (i < length fb)) as [Hi|]; simpl; [|done].
    destruct (decide (i < length sc)) as [Hi'|]; simpl; [|done].
    intros [= <-].
    assert (fb !! i = Some Absent) as Hgrey by (apply Hfb; [lia | done]).
    assert (sc !! i = Some (Some s)) as Hleft by (rewrite Hsc, Hs; [done | lia]).
    split; [split |]; simpl.
    + intros j col. destruct (decide (j = i)) as [->|].
      * rewrite list_lookup_insert_eq by done. intros [= <-]. auto.
      * rewrite list_lookup_insert_ne by done. apply Hcol.
    + intros j x. destruct (decide (j = i)) as [->|].
      * by rewrite list_lookup_insert_eq.
      * rewrite list_lookup_insert_ne by done. apply Hsec.
    + intros j. destruct (decide (j = i)) as [->|].
      * intros _. by exists s.
      * rewrite list_lookup_insert_ne by done. apply Hcor.
    + intros j. destruct (decide (j = i)) as [->|].
      * by rewrite list_lookup_insert_eq.
      * rewrite list_lookup_insert_ne by done. apply Hpre.
    + intros c. rewrite (marked_colour c g fb i s) by done.
      pose proof (left_count_consume c s sc i Hleft). specialize (Hbud c). lia.
    + split; [|split; [|split]].
      * intros j Hj. rewrite length_insert, list_lookup_insert_ne by lia.
        apply Hfb. lia.
      * intros j Hj. rewrite list_lookup_insert_ne by lia. apply Hsc. lia.
      * intros j ch Hj Hgj Hsj. destruct (decide (j = i)) as [->|].
        -- by rewrite list_lookup_insert_eq.
        -- rewrite list_lookup_insert_ne by done. apply (Hdone j ch); [lia | done..].
      * intros j. destruct (decide (j = i)) as [->|].
        -- by rewrite list_lookup_insert_eq.
        -- rewrite list_lookup_insert_ne by done. apply Hno.
  - intros [= <-]. split; [done |]. simpl. split; [|split; [|split]].
    + intros j Hj. apply Hfb. lia.
    + intros j Hj. apply Hsc. lia.
    + intros j c Hj Hgj Hsj. apply (Hdone j c); [|done..].
      destruct (decide (j = i)) as [->|]; [congruence | lia].
    + done.
Qed.

Lemma Pass2_start m : Pass1 sec g (length g) m → Pass2 sec g 0 m.
Proof.
  intros (HM & _ & _ & Hdone & _). split; [done |].
  split; [lia |]. split.
  - intros j ch Hj Hs. apply (Hdone j ch); [by eapply lookup_lt_Some | done..].
  - intros j ch Hj. lia.
Qed.

Lemma Pass2_step k ch m m' :
  g !! k = Some ch → Pass2 sec g k m → misplaced_body k ch m = Some m' →
  Pass2 sec g (S k) m'.
Proof.
  destruct m as [fb sc]. intros Hg ([Hcol Hsec Hcor Hpre Hbud] & Hk & Hmatch & Habs).
  simpl in *. unfold misplaced_body. simpl.
  destruct (fb !! k) as [col|] eqn:Hfbk; simpl; [|done].
  pose proof (lookup_lt_Some _ _ _ Hfbk) as Hlt.
  destruct (bool_decide (col = Absent) && contains ch sc) eqn:Hc.
  - apply andb_true_iff in Hc as [Hgrey Hin].
    apply bool_decide_eq_true in Hgrey as ->.
    destruct (contains_index _ _ Hin) as (j & Hj & Hjlt).
    rewrite set_item_Some, Hj by done. simpl.
    rewrite set_item_Some by done. simpl. intros [= <-].
    pose proof (index_lookup _ _ _ Hj) as Hleft.
    assert (sec !! k ≠ Some ch) as Hnot.
    { intros Hs. by rewrite (Hmatch k ch Hg Hs) in Hfbk. }
    split; [split |]; simpl.
    + intros j0 col. destruct (decide (j0 = k)) as [->|].
      * rewrite list_lookup_insert_eq by done. intros [= <-]. auto.
      * rewrite list_lookup_insert_ne by done. apply Hcol.
    + intros j0 x. destruct (decide (j0 = j)) as [->|].
      * by rewrite list_lookup_insert_eq.
      * rewrite list_lookup_insert_ne by done. apply Hsec.
    + intros j0. destruct (decide (j0 = k)) as [->|].
      * by rewrite list_lookup_insert_eq.
      * rewrite list_lookup_insert_ne by done. apply Hcor.
    + intros j0. destruct (decide (j0 = k)) as [->|].
      * intros _. exists ch. split; [done |]. split; [|done].
        eapply list_elem_of_lookup_2. by apply (Hsec j).
      * rewrite list_lookup_insert_ne by done. apply Hpre.
    + intros c. rewrite (marked_colour c g fb k ch) by done.
      pose proof (left_count_consume c ch sc j Hleft). specialize (Hbud c). lia.
    + split; [rewrite length_insert; lia |]. split.
      * intros j0 c Hgj Hsj. destruct (decide (j0 = k)) as [->|].
        -- congruence.
        -- rewrite list_lookup_insert_ne by done. by apply (Hmatch j0 c).
      * intros j0 c Hj0 Hgj. destruct (decide (j0 = k)) as [->|].
        -- by rewrite list_lookup_insert_eq.
        -- rewrite list_lookup_insert_ne by done. intros Hgrey.
           apply contains_consume. apply (Habs j0 c); [lia | done..].
  - intros [= <-]. split; [done |]. simpl. split; [lia |]. split; [done |].
    intros j0 c Hj0 Hgj Hgrey. destruct (decide (j0 = k)) as [->|].
    + assert (c = ch) as -> by congruence.
      rewrite Hfbk in Hgrey. injection Hgrey as ->.
      by rewrite bool_decide_eq_true_2 in Hc.
    + apply (Habs j0 c); [lia | done..].
Qed.

End Passes.

(** The state of the two loops when [_feedback] returns. *)
Lemma feedback_Pass2 (s g : string) fb :
  _feedback s g = Some fb →
  ∃ sc, Pass2 (Str.chars s) (Str.chars g) (length (Str.chars g)) (fb, sc).
Proof.
  unfold _feedback.
  destruct (for_enumerate (exact_body _) 0 _ _) as [m1|] eqn:H1; simpl; [|done].
  destruct (for_enumerate misplaced_body 0 _ m1) as [[fb2 sc2]|] eqn:H2;
    simpl; [|done].
  intros [= <-]. exists sc2.
  apply (for_enumerate_inv misplaced_body
           (Pass2 (Str.chars s) (Str.chars g)) _ m1 (fb2, sc2));
    [|apply Pass2_start|done].
  - intros i x m m'. apply Pass2_step.
  - apply (for_enumerate_inv (exact_body (Str.chars s))
             (Pass1 (Str.chars s) (Str.chars g)) _
             (replicate GRID_COLS Absent, Some <$> Str.chars s) m1);
      [|apply Pass1_start|done].
    intros i x m m'. apply Pass1_step.
Qed.

Section FeedbackFacts.

(** A guess longer than the secret: the first loop reads the secret out of
    range. *)
Lemma exact_pass_short sec g : ∀ i m,
  i ≤ length sec → length sec < i + length g →
  for_enumerate (exact_body sec) i g m = None.
Proof.
  induction g as [|ch g IH]; intros i m Hi Hg; simpl in *; [lia |].
  destruct (exact_body sec i ch m) as [m'|] eqn:Hbody; [|done].
  apply IH; [|lia].
  destruct (decide (i = length sec)) as [->|]; [|lia].
  unfold exact_body in Hbody. by rewrite (lookup_ge_None_2 sec) in Hbody.
Qed.

Lemma feedback_None s g :
  GRID_COLS < Str.len g ∨ Str.len s < Str.len g → _feedback s g = None.
Proof.
  rewrite <- !StrFacts.len_chars. unfold _feedback.
  destruct (decide (length (Str.chars s) < length (Str.chars g))) as [Hshort|Hlong].
  - intros _. rewrite exact_pass_short; [done | lia | simpl; lia].
  - intros [Hg|Hg]; [|done].
    destruct (for_enumerate (exact_body (Str.chars s)) 0 (Str.chars g)
                (replicate GRID_COLS Absent, Some <$> Str.chars s))
      as [[fb1 sc1]|] eqn:H1; simpl; [|done].
    apply exact_pass_length in H1. rewrite length_replicate in H1.
    rewrite misplaced_pass_overrun; [done | lia | simpl; lia].
Qed.

Lemma feedback_Some s g :
  Str.len g ≤ GRID_COLS → Str.len g ≤ Str.len s →
  ∃ fb, _feedback s g = Some fb ∧ length fb = GRID_COLS.
Proof.
  rewrite <- !StrFacts.len_chars. intros Hg Hs. unfold _feedback.
  destruct (exact_pass_spec (Str.chars s) (Str.chars g) 0
              (replicate GRID_COLS Absent) (Some <$> Str.chars s))
    as (fb1 & sc1 & H1 & Hl1 & _).
  - by rewrite length_fmap.
  - simpl. lia.
  - by rewrite length_replicate.
  - intros j _. destruct (decide (j < GRID_COLS)).
    + by rewrite lookup_replicate_2.
    + rewrite lookup_ge_None_2; [done | rewrite length_replicate; lia].
  - rewrite H1. simpl.
    destruct (misplaced_pass_spec (Str.chars g) 0 fb1 sc1)
      as (fb2 & sc2 & H2 & Hl2 & _).
    + rewrite Hl1, length_replicate. simpl. lia.
    + rewrite H2. simpl. exists fb2.
      by rewrite Hl2, Hl1, length_replicate.
Qed.

(** What a result of [_feedback] says of the two words. *)
Lemma feedback_Some_inv s g fb :
  _feedback s g = Some fb →
  length fb = GRID_COLS ∧ Str.len g ≤ GRID_COLS ∧ Str.len g ≤ Str.len s.
Proof.
  intros Hfb.
  assert (Str.len g ≤ GRID_COLS ∧ Str.len g ≤ Str.len s) as [Hg Hs].
  { destruct (decide (GRID_COLS < Str.len g ∨ Str.len s < Str.len g)) as [Hbad|Hok].
    - by rewrite (feedback_None _ _ Hbad) in Hfb.
    - lia. }
  destruct (feedback_Some s g Hg Hs) as (fb' & Hfb' & Hlen).
  split; [congruence | done].
Qed.

(** A guess equal to the secret is all green. *)
Lemma feedback_exact s :
  Str.len s = GRID_COLS → _feedback s s = Some (replicate GRID_COLS Correct).
Proof.
  intros Hlen.
  destruct (feedback_Some s s) as (fb & Hfb & Hfblen); [lia | lia |].
  rewrite Hfb. f_equal.
  destruct (feedback_Pass2 s s fb Hfb) as (sc & _ & _ & Hmatch & _).
  simpl in Hmatch.
  apply list_eq. intros i. destruct (decide (i < GRID_COLS)) as [Hi|Hi].
  - rewrite lookup_replicate_2 by done.
    destruct (lookup_lt_is_Some_2 (Str.chars s) i) as [ch Hch];
      [rewrite StrFacts.len_chars; lia |].
    by apply (Hmatch i ch).
  - rewrite !lookup_ge_None_2; [done | rewrite length_replicate; lia | lia].
Qed.

Lemma chars_inj s g : Str.chars s = Str.chars g → s = g.
Proof.
  intros H. rewrite <- (string_of_list_ascii_of_string s),
    <- (string_of_list_ascii_of_string g). unfold Str.chars in H. by rewrite H.
Qed.

End FeedbackFacts.

(** Property X1.  [_feedback] raises [IndexError] exactly when the guess has more than
    [GRID_COLS] letters or more letters than the secret. *)
Theorem feedback_raises_iff (s g : string) :
  _feedback s g = None ↔ GRID_COLS < Str.len g ∨ Str.len s < Str.len g.
Proof.
  split; [|apply feedback_None].
  intros Hnone.
  destruct (decide (GRID_COLS < Str.len g ∨ Str.len s < Str.len g)) as [|Hok];
    [done |].
  destruct (feedback_Some s g) as (fb & Hfb & _); [lia | lia | congruence].
Qed.

(** Property X2.  The verdicts of a feedback, tile by tile: there are [GRID_COLS] of them,
    each one of the three colours; a tile is green exactly where guess and
    secret have the same letter; the letter of a yellow tile occurs in the
    secret and is not the secret's letter at that place; a letter that does
    not occur in the secret is grey. *)
Theorem feedback_verdicts (s g : string) (fb : list string) :
  _feedback s g = Some fb →
  length fb = GRID_COLS
  ∧ ∀ i, i < GRID_COLS →
      (fb !! i = Some Correct ∨ fb !! i = Some Present ∨ fb !! i = Some Absent)
      ∧ (fb !! i = Some Correct ↔
         ∃ ch, Str.chars g !! i = Some ch ∧ Str.chars s !! i = Some ch)
      ∧ (fb !! i = Some Present →
         ∃ ch, Str.chars g !! i = Some ch ∧ ch ∈ Str.chars s
               ∧ Str.chars s !! i ≠ Some ch)
      ∧ (∀ ch, Str.chars g !! i = Some ch → ch ∉ Str.chars s →
         fb !! i = Some Absent).
Proof.
  intros Hfb. destruct (feedback_Some_inv _ _ _ Hfb) as (Hlen & _ & _).
  split; [done |]. intros i Hi.
  destruct (feedback_Pass2 s g fb Hfb)
    as (sc & [Hcol _ Hcor Hpre _] & _ & Hmatch & _). simpl in *.
  destruct (lookup_lt_is_Some_2 fb i) as [col Hc]; [lia |].
  assert (fb !! i = Some Correct ∨ fb !! i = Some Present
          ∨ fb !! i = Some Absent) as H3.
  { rewrite Hc. destruct (Hcol i col Hc) as [->| [->| ->]]; auto. }
  split; [done |]. split; [|split].
  - split; [apply Hcor |]. intros (ch & Hg & Hs). by apply (Hmatch i ch).
  - apply Hpre.
  - intros ch Hg Hnot. destruct H3 as [H3| [H3|H3]]; [| |done].
    + destruct (Hcor i H3) as (ch' & Hg' & Hs').
      exfalso. apply Hnot. assert (ch = ch') as -> by congruence.
      by eapply list_elem_of_lookup_2.
    + destruct (Hpre i H3) as (ch' & Hg' & Hin & _).
      exfalso. apply Hnot. by assert (ch = ch') as -> by congruence.
Qed.

Lemma feedback_verdicts_witness :
  ∃ fb, _feedback "alloy" "llama" = Some fb
        ∧ length fb = GRID_COLS
        ∧ (fb !! 1 = Some Correct ↔
           ∃ ch, Str.chars "llama" !! 1 = Some ch
                 ∧ Str.chars "alloy" !! 1 = Some ch).
Proof.
  exists [Present; Correct; Present; Absent; Absent].
  assert (_feedback "alloy" "llama"
          = Some [Present; Correct; Present; Absent; Absent]) as Hfb
    by reflexivity.
  split; [exact Hfb |].
  destruct (feedback_verdicts "alloy" "llama" _ Hfb) as [Hlen Htiles].
  split; [exact Hlen |].
  destruct (Htiles 1) as (_ & Hgreen & _); [unfold GRID_COLS; lia |].
  exact Hgreen.
Defined.

(** Property X3.  For a secret of [GRID_COLS] letters the feedback is all green exactly
    when the guess is the secret. *)
Theorem feedback_all_correct_iff (s g : string) :
  Str.len s = GRID_COLS →
  _feedback s g = Some (replicate GRID_COLS Correct) ↔ g = s.
Proof.
  intros Hs. split; [|intros ->; by apply feedback_exact].
  intros Hfb. destruct (feedback_Some_inv _ _ _ Hfb) as (_ & Hg & _).
  destruct (feedback_Pass2 s g _ Hfb) as (sc & [_ _ Hcor _ _] & _).
  cbn [fst snd] in Hcor. apply chars_inj, list_eq. intros i.
  destruct (decide (i < GRID_COLS)) as [Hi|Hi].
  - destruct (Hcor i) as (ch & -> & ->); [by apply lookup_replicate_2 | done].
  - rewrite !lookup_ge_None_2; [done |
      rewrite StrFacts.len_chars; lia | rewrite StrFacts.len_chars; lia].
Qed.

Lemma feedback_all_correct_iff_witness :
  _feedback "crane" "crane" = Some (replicate GRID_COLS Correct)
  ∧ _feedback "crane" "crate" ≠ Some (replicate GRID_COLS Correct).
Proof.
  split.
  - apply (feedback_all_correct_iff "crane" "crane"); reflexivity.
  - intros Hfb.
    apply (feedback_all_correct_iff "crane" "crate") in Hfb; [|reflexivity].
    discriminate Hfb.
Defined.

(** Property X4.  The duplicate-letter rule: for every letter, the number of coloured
    (green or yellow) tiles of the guess that carry it is the smaller of its
    number of occurrences in the guess and in the secret. *)
Theorem feedback_letter_budget (s g : string) (fb : list string) (c : ascii) :
  _feedback s g = Some fb →
  marked c (Str.chars g) fb
  = letter_count c (Str.chars g) `min` letter_count c (Str.chars s).
Proof.
  intros Hfb.
  destruct (feedback_Pass2 s g fb Hfb)
    as (sc & [_ _ _ _ Hbud] & Hlen & _ & Habs). simpl in *.
  specialize (Hbud c).
  pose proof (marked_le_guess c (Str.chars g) fb) as Hle.
  destruct (marked_all_or_grey c (Str.chars g) fb Hlen)
    as [Hall|(j & Hj & Hgrey)]; [lia |].
  rewrite (left_count_0 c sc) in Hbud; [lia |].
  apply (Habs j c); [by eapply lookup_lt_Some | done..].
Qed.

Lemma feedback_letter_budget_witness :
  marked "a" (Str.chars "llama") [Present; Correct; Present; Absent; Absent]
  = letter_count "a" (Str.chars "llama")
    `min` letter_count "a" (Str.chars "alloy").
Proof.
  apply (feedback_letter_budget "alloy" "llama"). reflexivity.
Defined.

(** ** What the key handlers leave alone *)

Section Frame.

(** The attributes no key handler assigns. *)
Local Abbreviation same_words self self' :=
  (words self' = words self ∧ word_set self' = word_set self
   ∧ secret self' = secret self).

Lemma after_guess_frame guess self : same_words self (_after_guess guess self).
Proof.
  unfold _after_guess. simpl.
  destruct (decide (guess = secret self)); [done |]. simpl.
  destruct (decide (GRID_ROWS ≤ current_row self + 1)); [done |].
  unfold entry_delete. by simpl.
Qed.

Lemma fire_frame self t : same_words self (fire self t).
Proof.
  unfold fire. destruct t as [d [i col|guess]]; simpl.
  - by destruct (paint (current_row self) i col (tiles self)).
  - apply after_guess_frame.
Qed.

Lemma run_timers_frame ts : ∀ self, same_words self (run_timers ts self).
Proof.
  induction ts as [|t ts IH]; intros self; [done |]. simpl.
  destruct (IH (fire self t)) as (-> & -> & ->). apply fire_frame.
Qed.

Lemma submit_guess_frame self self' ts :
  _submit_guess self = Some (self', ts) → same_words self self'.
Proof.
  unfold _submit_guess.
  repeat (case_match; [by intros [= <- <-] |]).
  destruct (_feedback _ _); simpl; [|done]. by intros [= <- <-].
Qed.

Lemma key_return_frame self : same_words self (key_return self).
Proof.
  unfold key_return.
  destruct (_submit_guess self) as [[self' ts]|] eqn:Hs; [|done].
  destruct (submit_guess_frame _ _ _ Hs) as (<- & <- & <-).
  apply run_timers_frame.
Qed.

Lemma type_text_frame raw self : same_words self (type_text raw self).
Proof. unfold type_text. by destruct (entry_state self). Qed.

End Frame.

(** ** More on sessions *)

Section SessionFacts.

Variable top_n_list : string → N → list string.
Variable zipf_frequency : string → string → Q.

Local Abbreviation session := (reachable top_n_list zipf_frequency).
Local Abbreviation loaded := (load_words top_n_list zipf_frequency).
Local Abbreviation kept := (keep zipf_frequency).

Lemma keep_true_iff w :
  kept w = true ↔
  Str.len w = 5 ∧ Str.isalpha w = true
  ∧ (MIN_ZIPF <= zipf_frequency w "en")%Q.
Proof.
  unfold keep. rewrite !andb_true_iff, bool_decide_eq_true, Qle_bool_iff.
  tauto.
Qed.

Lemma init_inv k self :
  __init__ top_n_list zipf_frequency k = Some self →
  ∃ s, choice k loaded.1 = Some s
       ∧ self = mkGUI loaded.1 loaded.2 s 0 blank_tiles "" normal (Text "").
Proof.
  unfold __init__. destruct loaded as [ws wset]. intros Hstart.
  by destruct (start_game_spec _ _ _ Hstart blank_tiles_shape) as (s & Hs & ->);
    exists s.
Qed.

Lemma session_words self :
  session self → words self = loaded.1 ∧ word_set self = loaded.2.
Proof.
  induction 1 as [k self Hinit | e self self' Hr [IHw IHs] Hstep].
  - by destruct (init_inv _ _ Hinit) as (s & _ & ->).
  - destruct e as [raw| |k]; simpl in Hstep.
    + injection Hstep as <-.
      destruct (type_text_frame raw self) as (-> & -> & _). done.
    + injection Hstep as <-.
      destruct (key_return_frame self) as (-> & -> & _). done.
    + destruct (start_game_spec _ _ _ Hstep) as (s & _ & ->); [|done].
      apply (inv_grid _ (reachable_Inv _ _ _ Hr)).
Qed.

Lemma session_valid_or_rejected self :
  accepts self (Str.lower (entry_text self)) →
  valid_guess self (Str.lower (entry_text self)).
Proof.
  intros Ha.
  destruct (valid_guess_dec self (Str.lower (entry_text self)))
    as [Hv | [H | [[H1 H2] | (H1 & H2 & H3)]]]; [done | exfalso..].
  - by apply (accepts_not_rejects _ _ "Enter exactly 5 letters" Ha),
      submit_wrong_length.
  - by apply (accepts_not_rejects _ _ "Letters only, please" Ha),
      submit_non_alpha.
  - by apply (accepts_not_rejects _ _ "Not a valid word" Ha), submit_unknown.
Qed.




(** Property X7.  The word list and the word set are those of [load_words] all through a
    session: no handler assigns them. *)
Theorem words_are_loaded (self : WordleGUI) :
  session self →
  words self = loaded.1
  ∧ word_set self = loaded.2
  ∧ (∀ w, w ∈ word_set self ↔ w ∈ words self).
Proof.
  intros Hs. destruct (session_words self Hs) as [Hw Hset].
  split; [done |]. split; [done |].
  intros w. rewrite Hset, Hw. unfold load_words. simpl.
  apply elem_of_list_to_set.
Qed.

(** Property X5.  In a session a text is accepted exactly when its lower-case form is the
    lower-case form of a word [wordfreq] lists that has 5 characters, all
    letters, and a Zipf frequency of at least [MIN_ZIPF]: the checks of a
    guess are the rules of the word list. *)
Theorem accepted_iff_listed (self : WordleGUI) :
  session self →
  accepts self (Str.lower (entry_text self)) ↔
  ∃ w0, w0 ∈ top_n_list "en" WORDS_SAMPLE
        ∧ Str.len w0 = 5 ∧ Str.isalpha w0 = true
        ∧ (MIN_ZIPF <= zipf_frequency w0 "en")%Q
        ∧ Str.lower (entry_text self) = Str.lower w0.
Proof.
  intros Hs. pose proof (reachable_Inv _ _ _ Hs) as HI.
  destruct (session_words self Hs) as [Hw Hset].
  assert (∀ w, w ∈ word_set self ↔ w ∈ loaded.1) as Hmem.
  { intros w. rewrite Hset. unfold load_words. simpl.
    apply elem_of_list_to_set. }
  split.
  - intros (_ & _ & Hin)%session_valid_or_rejected.
    apply Hmem, load_words_elem in Hin as (w0 & Hlow & Hin & Hk).
    apply keep_true_iff in Hk as (? & ? & ?). by exists w0.
  - intros (w0 & Hin & Hlen & Halpha & Hz & Hlow).
    assert (Str.lower (entry_text self) ∈ word_set self) as Hmember.
    { apply Hmem, load_words_elem. exists w0.
      split; [done |]. split; [done |]. by apply keep_true_iff. }
    apply (Inv_accepts _ HI).
    destruct (Inv_word_set_good _ _ HI Hmember) as (? & ? & _). by split.
Qed.

(** Property X6.  [__init__] raises, out of [random.choice], exactly when no word of
    [wordfreq] passes the filter; otherwise the session starts at row 0 with
    a secret drawn from the word list, a grey grid, an empty enabled entry
    and no message. *)
Theorem init_spec (k : nat) :
  (__init__ top_n_list zipf_frequency k = None ↔ loaded.1 = [])
  ∧ ∀ self, __init__ top_n_list zipf_frequency k = Some self →
      words self = loaded.1
      ∧ word_set self = loaded.2
      ∧ loaded.1 !! (k mod length loaded.1) = Some (secret self)
      ∧ current_row self = 0
      ∧ tiles self = blank_tiles
      ∧ entry_text self = ""
      ∧ entry_state self = normal
      ∧ message self = Text "".
Proof.
  split.
  - unfold __init__, _start_game. destruct loaded as [ws wset]. simpl.
    split.
    + intros Hnone. destruct ws as [|w ws]; [done |].
      destruct (choice_is_Some k (w :: ws)) as [s Hs]; [done |].
      by rewrite Hs in Hnone.
    + by intros ->.
  - intros self Hinit. by destruct (init_inv _ _ Hinit) as (s & Hs & ->).
Qed.

(** Property X8.  New Game in a session never raises, whatever the state of the game: it
    draws a secret from the word list and puts everything else back (row 0,
    grey grid, empty enabled entry, no message), keeping the word list. *)
Theorem new_game_resets (self : WordleGUI) (k : nat) :
  session self →
  ∃ s, words self !! (k mod length (words self)) = Some s
       ∧ _start_game k self
         = Some (mkGUI (words self) (word_set self) s 0 blank_tiles ""
                   normal (Text "")).
Proof.
  intros Hs. pose proof (reachable_Inv _ _ _ Hs) as HI.
  destruct (reachable_no_exception _ _ self (NewGame k) Hs) as [self' Hstart].
  simpl in Hstart.
  destruct (start_game_spec _ _ _ Hstart (inv_grid _ HI)) as (s & Hch & ->).
  by exists s.
Qed.

(** Property X10.  Return on a valid guess while the entry is enabled and no
    timer is waiting, and then the loop alone (no key, no New Game) until the
    queue is empty again: the feedback of the guess is painted into the row
    [current_row] had, every other row of the grid is as before, and the
    grid is still 6 by 5. *)
Theorem accepted_guess_paints_row (L L1 L2 : Loop) (ss : list Step) :
  loop_reachable top_n_list zipf_frequency L →
  queue L = [] →
  entry_state (gui L) = normal →
  valid_guess (gui L) (Str.lower (entry_text (gui L))) →
  loop_step (Key KeyReturn) L = Some L1 →
  Forall quiet ss →
  loop_run ss L1 = Some L2 →
  queue L2 = [] →
  ∃ fb, _feedback (secret (gui L)) (Str.lower (entry_text (gui L))) = Some fb
        ∧ tiles (gui L2) !! current_row (gui L) = Some fb
        ∧ (∀ r, r ≠ current_row (gui L) →
             tiles (gui L2) !! r = tiles (gui L) !! r)
        ∧ grid_shape (tiles (gui L2)).
Proof.
  intros HR%loop_reachable_Robust Hempty He Hv Hret Hq Hrun Hdone.
  rewrite (key_return_settles L L1 L2 ss Hempty Hret Hq Hrun Hdone).
  destruct (key_return_valid (gui L) Hv (Robust_secret_len _ HR) (rb_grid _ HR))
    as (fb & Hfb & Hlen & ->).
  exists fb. split; [done |].
  assert (∀ guess self, tiles (_after_guess guess self) = tiles self) as ->.
  { intros guess self. unfold _after_guess. simpl.
    destruct (decide (guess = secret self)); [done |]. simpl.
    destruct (decide (GRID_ROWS ≤ current_row self + 1)); [done |].
    unfold entry_delete. by simpl. }
  simpl. destruct (rb_enabled _ HR He) as [Hrow _]. split; [|split].
  - apply list_lookup_insert_eq. destruct (rb_grid _ HR) as [-> _]. lia.
  - intros r Hr. by rewrite list_lookup_insert_ne.
  - by apply grid_shape_insert; [apply (rb_grid _ HR) |].
Qed.


(** Property X12.  What holds of the label in every state of the loop,
    whatever the order of keys, New Game and timers.  An enabled entry means
    that a row is left and that the label shows no outcome; so a label that
    shows a win or a loss comes with a disabled entry.  "You won in n
    tries!" has n = [current_row] + 1.  "Out of tries!" names the current
    secret, and then all rows are used. *)
Theorem status_is_backed (L : Loop) :
  loop_reachable top_n_list zipf_frequency L →
  let self := gui L in
  (entry_state self = normal →
   current_row self < GRID_ROWS ∧ status self = InProgress)
  ∧ (status self = Won →
     entry_state self = disabled
     ∧ message self = YouWon (current_row self + 1))
  ∧ (status self = Lost →
     entry_state self = disabled
     ∧ GRID_ROWS ≤ current_row self
     ∧ message self = OutOfTries (secret self)).
Proof.
  intros HR%loop_reachable_Robust. cbv zeta.
  assert (status (gui L) ≠ InProgress → entry_state (gui L) = disabled)
    as Hoff.
  { intros Hst. destruct (entry_state (gui L)) eqn:He; [|done].
    by destruct (rb_enabled _ HR He). }
  split; [apply (rb_enabled _ HR) |]. split.
  - intros Hst. split; [apply Hoff; congruence |].
    unfold status in Hst.
    destruct (message (gui L)) as [s|n|w] eqn:Hm; try done.
    by rewrite (rb_won _ HR n Hm).
  - intros Hst. split; [apply Hoff; congruence |].
    unfold status in Hst.
    destruct (message (gui L)) as [s|n|w] eqn:Hm; try done.
    by destruct (rb_lost _ HR w Hm) as [-> ?].
Qed.

(** Property X14.  In a session neither the Return handler nor New Game raises. *)
Theorem session_never_raises (self : WordleGUI) :
  session self →
  is_Some (_submit_guess self) ∧ ∀ k, is_Some (_start_game k self).
Proof.
  intros Hs. pose proof (reachable_Inv _ _ _ Hs) as HI. split.
  - destruct (valid_guess_dec self (Str.lower (entry_text self)))
      as [Hv | [H | [[H1 H2] | (H1 & H2 & H3)]]].
    + by destruct (Inv_accepts _ HI Hv) as (fb & _ & ->).
    + by rewrite submit_wrong_length.
    + by rewrite submit_non_alpha.
    + by rewrite submit_unknown.
  - intros k. apply (reachable_no_exception _ _ self (NewGame k) Hs).
Qed.

(** Property X15.  A tile timer raises [IndexError] exactly when the current row is past
    the grid, as it is after a lost game, or its column is. *)
Theorem paint_raises_iff (self : WordleGUI) (i : nat) (col : string) :
  session self →
  run_callback (Paint i col) self = None
  ↔ GRID_ROWS ≤ current_row self ∨ GRID_COLS ≤ i.
Proof.
  intros HI%reachable_Inv. destruct (inv_grid _ HI) as [Hrows Hcols].
  unfold run_callback, paint.
  destruct (tiles self !! current_row self) as [row|] eqn:Hrow; simpl.
  - pose proof (lookup_lt_Some _ _ _ Hrow) as Hlt.
    pose proof (Forall_lookup_1 _ _ _ _ Hcols Hrow) as Hlen. simpl in Hlen.
    unfold set_item. case_decide; simpl; split; try done; lia.
  - apply lookup_ge_None_1 in Hrow. split; [lia | done].
Qed.

End SessionFacts.

(** Property X9.  Key events never change the secret, the word list or the word set, in
    any state: only New Game draws a secret. *)
Theorem keys_keep_secret (evs : list Event) (self self' : WordleGUI) :
  Forall (λ e, ∀ k, e ≠ NewGame k) evs →
  run evs self = Some self' →
  secret self' = secret self
  ∧ words self' = words self
  ∧ word_set self' = word_set self.
Proof.
  unfold run. revert self'.
  induction evs as [|e evs IH] using rev_ind; intros self' Hkeys.
  - by intros [= <-].
  - apply Forall_app in Hkeys as [Hkeys [He _]%Forall_cons].
    rewrite foldl_app. simpl.
    destruct (foldl _ _ evs) as [mid|] eqn:Hmid; simpl; [|done].
    destruct (IH mid Hkeys eq_refl) as (<- & <- & <-).
    destruct e as [raw| |k]; simpl.
    + intros [= <-]. destruct (type_text_frame raw mid) as (? & ? & ?). done.
    + intros [= <-]. destruct (key_return_frame mid) as (? & ? & ?). done.
    + by destruct (He k).
Qed.

Lemma keys_keep_secret_witness :
  secret Demo.lost_game = secret Demo.game
  ∧ words Demo.lost_game = words Demo.game
  ∧ word_set Demo.lost_game = word_set Demo.game.
Proof.
  apply (keys_keep_secret
           (Demo.six_misses ≫= λ raw, [KeyText raw; KeyReturn])).
  - repeat constructor; by intros k.
  - by vm_compute.
Defined.

(** Property X13.  The timers one Return puts into the queue.  For a
    rejected guess: only the timer of [_shake], due 100 ms later, which puts
    the window back.  For an accepted guess: exactly six, tile [i] due
    [i * ANIM_DELAY] ms later with the colour [i] of the feedback, and
    [_after_guess] due 950 ms later.  The delays grow strictly, so with no
    other timer waiting they fire in this order, [_after_guess] last. *)
Theorem submit_timers_schedule (L L' : Loop) :
  loop_step (Key KeyReturn) L = Some L' →
  let self := gui L in
  let guess := Str.lower (entry_text self) in
  ∃ jobs,
    queue L' = after_all (clock L) jobs (queue L)
    ∧ StronglySorted N.lt jobs.*1
    ∧ (queue L = [] →
       queue L' = (λ d : N * Job, ((clock L + d.1)%N, d.2)) <$> jobs)
    ∧ (¬ valid_guess self guess → jobs = [(100%N, Unshake)])
    ∧ (valid_guess self guess →
       ∃ fb, _feedback (secret self) guess = Some fb
             ∧ length fb = GRID_COLS
             ∧ jobs
               = ((λ ic : nat * string,
                     ((N.of_nat ic.1 * ANIM_DELAY)%N, Call (Paint ic.1 ic.2)))
                    <$> enumerate_from 0 fb)
                 ++ [(950%N, Call (AfterGuess guess))]).
Proof.
  simpl. destruct (_submit_guess (gui L)) as [[self' ts]|] eqn:Hsub; simpl;
    [|done].
  intros [= <-]. simpl. exists (submit_jobs ts).
  pose proof (submit_jobs_sorted _ _ _ Hsub) as Hsort.
  split; [done |]. split; [done |]. split.
  { intros ->. by rewrite after_all_snoc by (done || by intros u d ?%elem_of_nil). }
  destruct (submit_cases _ _ _ Hsub)
    as [(Hbad & -> & _)|(Hv & _ & fb & Hfb & ->)].
  - split; [done |]. by intros Hv.
  - split; [by intros Hbad |]. intros _. exists fb. split; [done |].
    pose proof (feedback_length _ _ _ Hfb) as Hlen. split; [done |].
    apply list_of_length_5 in Hlen as (c0 & c1 & c2 & c3 & c4 & ->).
    reflexivity.
Qed.

Lemma submit_timers_schedule_witness :
  ∃ L', loop_step (Key KeyReturn) DemoLoop.typed = Some L'
        ∧ queue L'
          = [(0%N, Call (Paint 0 Present)); (150%N, Call (Paint 1 Correct));
             (300%N, Call (Paint 2 Present)); (450%N, Call (Paint 3 Absent));
             (600%N, Call (Paint 4 Absent));
             (950%N, Call (AfterGuess "llama"))].
Proof.
  assert (∃ L', loop_step (Key KeyReturn) DemoLoop.typed = Some L')
    as [L' Hstep] by (eexists; reflexivity).
  exists L'. split; [exact Hstep |].
  destruct (submit_timers_schedule DemoLoop.typed L' Hstep)
    as (jobs & _ & _ & Hqueue & _ & Hvalid).
  destruct Hvalid as (fb & Hfb & _ & ->); [repeat split; compute_done |].
  rewrite (Hqueue eq_refl).
  assert (_feedback (secret (gui DemoLoop.typed))
            (Str.lower (entry_text (gui DemoLoop.typed)))
          = Some [Present; Correct; Present; Absent; Absent]) as Hfb'
    by reflexivity.
  rewrite Hfb' in Hfb. injection Hfb as <-. reflexivity.
Defined.

(** ** The canvas *)

(** Property X16.  The loops of [_create_widgets] make [GRID_ROWS] rows of [GRID_COLS]
    tiles of [TILE_SIZE] by [TILE_SIZE]; every tile lies on the canvas at
    least [TILE_PADDING] from its border, and two tiles are at least
    [TILE_PADDING] apart. *)
Theorem canvas_layout :
  length tile_rects = GRID_ROWS
  ∧ Forall (λ row, length row = GRID_COLS) tile_rects
  ∧ ∀ r c row t,
      tile_rects !! r = Some row → row !! c = Some t →
      rect_x2 t = rect_x1 t + TILE_SIZE
      ∧ rect_y2 t = rect_y1 t + TILE_SIZE
      ∧ TILE_PADDING ≤ rect_x1 t ∧ rect_x2 t + TILE_PADDING ≤ canvas_width
      ∧ TILE_PADDING ≤ rect_y1 t ∧ rect_y2 t + TILE_PADDING ≤ canvas_height
      ∧ ∀ r' c' row' t',
          tile_rects !! r' = Some row' → row' !! c' = Some t' →
          (r, c) ≠ (r', c') →
          rect_x2 t + TILE_PADDING ≤ rect_x1 t'
          ∨ rect_x2 t' + TILE_PADDING ≤ rect_x1 t
          ∨ rect_y2 t + TILE_PADDING ≤ rect_y1 t'
          ∨ rect_y2 t' + TILE_PADDING ≤ rect_y1 t.
Proof.
  assert (∀ r c row t, tile_rects !! r = Some row → row !! c = Some t →
            r < GRID_ROWS ∧ c < GRID_COLS ∧ t = tile_rect r c) as Hat.
  { intros r c row t. unfold tile_rects. rewrite list_lookup_fmap.
    destruct (seq 0 GRID_ROWS !! r) as [r0|] eqn:Hr; simpl; [|done].
    apply lookup_seq in Hr as [-> Hr]. intros [= <-]. cbv beta.
    do 5 (destruct c as [|c];
          [intros [= <-]; unfold GRID_COLS; repeat split; [done | lia] |]).
    done. }
  split; [done |]. split; [by repeat constructor |].
  intros r c row t Hr Hc. destruct (Hat _ _ _ _ Hr Hc) as (Hr6 & Hc5 & ->).
  unfold tile_rect, canvas_width, canvas_height, TILE_SIZE, TILE_PADDING,
    GRID_ROWS, GRID_COLS in *. simpl.
  repeat (split; [lia |]).
  intros r' c' row' t' Hr' Hc' Hne.
  destruct (Hat _ _ _ _ Hr' Hc') as (_ & _ & ->). simpl.
  assert (r ≠ r' ∨ c ≠ c') as [?|?]
    by (destruct (decide (r = r')), (decide (c = c')); [congruence | auto..]);
    lia.
Qed.

Lemma canvas_layout_witness :
  rect_x2 (tile_rect 0 0) + TILE_PADDING ≤ rect_x1 (tile_rect 0 1)
  ∨ rect_x2 (tile_rect 0 1) + TILE_PADDING ≤ rect_x1 (tile_rect 0 0)
  ∨ rect_y2 (tile_rect 0 0) + TILE_PADDING ≤ rect_y1 (tile_rect 0 1)
  ∨ rect_y2 (tile_rect 0 1) + TILE_PADDING ≤ rect_y1 (tile_rect 0 0).
Proof.
  destruct canvas_layout as (_ & _ & Htiles).
  destruct (Htiles 0 0 ((λ c, tile_rect 0 c) <$> seq 0 GRID_COLS)
              (tile_rect 0 0) eq_refl eq_refl) as (_ & _ & _ & _ & _ & _ & Hsep).
  apply (Hsep 0 1 ((λ c, tile_rect 0 c) <$> seq 0 GRID_COLS));
    [reflexivity | reflexivity | discriminate].
Defined.

(** ** The window *)

(** Property X17.  The position computed for the window puts it in the middle of the
    screen to within a pixel: the margins on either side differ by at most
    one; and a window no larger than the screen lies on the screen. *)
Theorem window_is_centred (w h sw sh : Z) :
  let x := (centre w h sw sh).1 in
  let y := (centre w h sw sh).2 in
  (-1 ≤ (sw - (x + w)) - x ≤ 1
   ∧ -1 ≤ (sh - (y + h)) - y ≤ 1
   ∧ (w ≤ sw → 0 ≤ x ∧ x + w ≤ sw)
   ∧ (h ≤ sh → 0 ≤ y ∧ y + h ≤ sh))%Z.
Proof.
  unfold centre. simpl.
  pose proof (Z.div_mod w 2). pose proof (Z.mod_pos_bound w 2).
  pose proof (Z.div_mod h 2). pose proof (Z.mod_pos_bound h 2).
  pose proof (Z.div_mod sw 2). pose proof (Z.mod_pos_bound sw 2).
  pose proof (Z.div_mod sh 2). pose proof (Z.mod_pos_bound sh 2).
  lia.
Qed.

Lemma window_is_centred_witness :
  centre 330 520 1920 1080 = (795, 280)%Z
  ∧ (0 ≤ 795 ∧ 795 + 330 ≤ 1920)%Z
  ∧ (0 ≤ 280 ∧ 280 + 520 ≤ 1080)%Z.
Proof.
  split; [reflexivity |].
  destruct (window_is_centred 330 520 1920 1080) as (_ & _ & Hx & Hy).
  split; [apply Hx | apply Hy]; lia.
Defined.

(** ** The sessions of [Demo] *)

Lemma words_are_loaded_witness :
  words Demo.game = (load_words Demo.top_n_list Demo.zipf_frequency).1
  ∧ word_set Demo.game = (load_words Demo.top_n_list Demo.zipf_frequency).2
  ∧ (∀ w, w ∈ word_set Demo.game ↔ w ∈ words Demo.game).
Proof.
  apply (words_are_loaded Demo.top_n_list Demo.zipf_frequency Demo.game).
  apply DemoFacts.game_reachable.
Defined.

Lemma accepted_iff_listed_witness :
  accepts (type_text "CRANE" Demo.game) "crane".
Proof.
  apply (accepted_iff_listed Demo.top_n_list Demo.zipf_frequency
           (type_text "CRANE" Demo.game)).
  - apply (reach_step _ _ (KeyText "CRANE") Demo.game);
      [apply DemoFacts.game_reachable | reflexivity].
  - exists "crane". split; [compute_done |]. split; [reflexivity |].
    split; [reflexivity |]. split; [by vm_compute | reflexivity].
Defined.

Lemma init_spec_witness :
  words Demo.game = (load_words Demo.top_n_list Demo.zipf_frequency).1
  ∧ secret Demo.game = "alloy"
  ∧ current_row Demo.game = 0
  ∧ tiles Demo.game = blank_tiles.
Proof.
  destruct (init_spec Demo.top_n_list Demo.zipf_frequency 0) as [_ Hinit].
  destruct (Hinit Demo.game eq_refl) as (Hw & _ & _ & Hrow & Htiles & _).
  split; [exact Hw |]. split; [reflexivity |]. split; [exact Hrow |].
  exact Htiles.
Defined.

Lemma new_game_resets_witness :
  ∃ s, words Demo.lost_game !! (2 mod length (words Demo.lost_game)) = Some s
       ∧ _start_game 2 Demo.lost_game
         = Some (mkGUI (words Demo.lost_game) (word_set Demo.lost_game) s 0
                   blank_tiles "" normal (Text "")).
Proof.
  apply (new_game_resets Demo.top_n_list Demo.zipf_frequency).
  apply DemoFacts.lost_game_reachable.
Defined.

Lemma accepted_guess_paints_row_witness :
  ∃ L1 L2,
    loop_step (Key KeyReturn) DemoLoop.typed = Some L1
    ∧ loop_run DemoLoop.settle L1 = Some L2
    ∧ ∃ fb, _feedback "alloy" "llama" = Some fb
            ∧ tiles (gui L2) !! 0 = Some fb
            ∧ (∀ r, r ≠ 0 →
                 tiles (gui L2) !! r = tiles (gui DemoLoop.typed) !! r)
            ∧ grid_shape (tiles (gui L2)).
Proof.
  assert (∃ L1, loop_step (Key KeyReturn) DemoLoop.typed = Some L1)
    as [L1 Hret] by (eexists; reflexivity).
  assert (∃ L2, loop_run DemoLoop.settle L1 = Some L2 ∧ queue L2 = [])
    as (L2 & Hrun & Hdone).
  { injection Hret as <-. eexists. split; [by vm_compute | reflexivity]. }
  exists L1, L2. split; [exact Hret |]. split; [exact Hrun |].
  apply (accepted_guess_paints_row Demo.top_n_list Demo.zipf_frequency
           DemoLoop.typed L1 L2 DemoLoop.settle).
  - apply DemoLoopFacts.typed_in_loop.
  - reflexivity.
  - reflexivity.
  - repeat split; compute_done.
  - exact Hret.
  - repeat constructor.
  - exact Hrun.
  - exact Hdone.
Defined.


Lemma status_is_backed_witness :
  let self := gui DemoLoop.lost in
  (entry_state self = normal →
   current_row self < GRID_ROWS ∧ status self = InProgress)
  ∧ (status self = Won →
     entry_state self = disabled
     ∧ message self = YouWon (current_row self + 1))
  ∧ (status self = Lost →
     entry_state self = disabled
     ∧ GRID_ROWS ≤ current_row self
     ∧ message self = OutOfTries (secret self)).
Proof.
  apply (status_is_backed Demo.top_n_list Demo.zipf_frequency DemoLoop.lost).
  apply DemoLoopFacts.lost_in_loop.
Defined.

Lemma session_never_raises_witness :
  is_Some (_submit_guess Demo.lost_game)
  ∧ ∀ k, is_Some (_start_game k Demo.lost_game).
Proof.
  apply (session_never_raises Demo.top_n_list Demo.zipf_frequency).
  apply DemoFacts.lost_game_reachable.
Defined.

Lemma paint_raises_iff_witness :
  run_callback (Paint 0 Correct) Demo.lost_game = None.
Proof.
  apply (paint_raises_iff Demo.top_n_list Demo.zipf_frequency Demo.lost_game
           0 Correct).
  - apply DemoFacts.lost_game_reachable.
  - left. by vm_compute.
Defined.
